(** * TACoChildApplication: the staking-authorization registry

    A shallow embedding of the Solidity contract [TACoChildApplication]
    (pragma ^0.8.0, so every [+], [-] and [++] on unsigned integers is
    checked and reverts with [Panic(0x11)] on overflow or underflow),
    followed by the properties of the registry.

    Solidity mappings are total: reading a key never written gives the
    zero value.  They are modelled as finite maps read with a default. *)

From Stdlib Require Import ZArith Lia Bool String.
From stdpp Require Import base option list gmap.

Local Open Scope Z_scope.

(** ** The execution environment *)

Module Evm.

(** Why a call reverts. *)
Inductive error :=
| Require_failed (msg : string)   (* require(cond, msg) with cond false *)
| Panic (code : Z)                (* 0x11 arithmetic, 0x32 array index  *)
| Call_failed.                    (* a call to another contract reverted *)

Inductive result (A : Type) :=
| Ok (a : A)
| Revert (e : error).
Arguments Ok {A} a.
Arguments Revert {A} e.

Definition bind {A B} (r : result A) (k : A -> result B) : result B :=
  match r with
  | Ok a => k a
  | Revert e => Revert e
  end.

Definition require (cond : bool) (msg : string) : result unit :=
  if cond then Ok tt else Revert (Require_failed msg).

Definition is_ok {A} (r : result A) : bool :=
  match r with Ok _ => true | Revert _ => false end.

Definition arithmetic_panic : error := Panic 17.
Definition index_panic : error := Panic 50.

(** [type(uintN).max] *)
Definition uint_max (bits : Z) : Z := 2 ^ bits - 1.

(** Checked [a + b] on [uintN]. *)
Definition checked_add (bits a b : Z) : result Z :=
  if a + b <=? uint_max bits then Ok (a + b) else Revert arithmetic_panic.

(** Checked [a - b] on any unsigned type. *)
Definition checked_sub (a b : Z) : result Z :=
  if b <=? a then Ok (a - b) else Revert arithmetic_panic.

(** The explicit conversion [uintN(x)] keeps the low [bits] bits. *)
Definition truncate (bits x : Z) : Z := Z.land x (Z.ones bits).

(** [a[i]] on a dynamic array. *)
Definition array_get {A} (a : list A) (i : Z) : result A :=
  if i <? 0 then Revert index_panic
  else match a !! Z.to_nat i with
       | Some x => Ok x
       | None => Revert index_panic
       end.

End Evm.

Import Evm.

Notation "x <- r ;; k" := (bind r (fun x => k))
  (at level 100, r at next level, right associativity).
Notation "r ;;; k" := (bind r (fun _ => k))
  (at level 100, right associativity).

Abbreviation address := Z (only parsing).

(** ** The contract *)

Module TACoChildApplication.

Record StakingProviderInfo := {
  operator : address;
  authorized : Z;            (* uint96 *)
  operatorConfirmed : bool;
  index : Z;                 (* uint248: index in stakingProviders array + 1 *)
  deauthorizing : Z;         (* uint96 *)
  endDeauthorization : Z     (* uint64 *)
}.

(** The value of a mapping slot that was never written. *)
Definition zero_info : StakingProviderInfo :=
  {| operator := 0; authorized := 0; operatorConfirmed := false;
     index := 0; deauthorizing := 0; endDeauthorization := 0 |}.

Definition with_operator (v : address) (i : StakingProviderInfo) :=
  {| operator := v; authorized := authorized i;
     operatorConfirmed := operatorConfirmed i; index := index i;
     deauthorizing := deauthorizing i;
     endDeauthorization := endDeauthorization i |}.

Definition with_authorized (v : Z) (i : StakingProviderInfo) :=
  {| operator := operator i; authorized := v;
     operatorConfirmed := operatorConfirmed i; index := index i;
     deauthorizing := deauthorizing i;
     endDeauthorization := endDeauthorization i |}.

Definition with_operatorConfirmed (v : bool) (i : StakingProviderInfo) :=
  {| operator := operator i; authorized := authorized i;
     operatorConfirmed := v; index := index i;
     deauthorizing := deauthorizing i;
     endDeauthorization := endDeauthorization i |}.

Definition with_index (v : Z) (i : StakingProviderInfo) :=
  {| operator := operator i; authorized := authorized i;
     operatorConfirmed := operatorConfirmed i; index := v;
     deauthorizing := deauthorizing i;
     endDeauthorization := endDeauthorization i |}.

Definition with_deauthorizing (v : Z) (i : StakingProviderInfo) :=
  {| operator := operator i; authorized := authorized i;
     operatorConfirmed := operatorConfirmed i; index := index i;
     deauthorizing := v;
     endDeauthorization := endDeauthorization i |}.

Definition with_endDeauthorization (v : Z) (i : StakingProviderInfo) :=
  {| operator := operator i; authorized := authorized i;
     operatorConfirmed := operatorConfirmed i; index := index i;
     deauthorizing := deauthorizing i;
     endDeauthorization := v |}.

(** The contract's address and its immutables. *)
Record Contract := {
  this : address;
  rootApplication : address;
  minimumAuthorization : Z   (* uint96 *)
}.

(** Storage.  [_initialized] is the version counter of OpenZeppelin's
    [Initializable], which the contract inherits: the [initializer]
    modifier lets a call through only while the counter is 0 and sets it
    to 1, and [_disableInitializers()] sets it to its maximum. *)
Record Storage := {
  _initialized : Z;
  coordinator : address;
  stakingProviderInfo : gmap Z StakingProviderInfo;
  stakingProviders : list Z;
  operatorToStakingProvider : gmap Z Z
}.

(** What one call sees of the chain outside this contract's storage.
    The two other contracts are seen through the answers they give; the
    root application is taken not to call back into the registry while it
    handles [confirmOperatorAddress]. *)
Record World := {
  msg_sender : address;
  block_timestamp : Z;
  (* Coordinator(a).application(); None when that call reverts *)
  coordinator_application : address -> option address;
  (* whether rootApplication.confirmOperatorAddress(op) goes through *)
  root_confirms : address -> bool
}.

Inductive event :=
| Initialized (version : Z)
| OperatorUpdated (stakingProvider operator : address)
| AuthorizationUpdated (stakingProvider : address)
    (authorized deauthorizing endDeauthorization : Z)
| OperatorConfirmed (stakingProvider operator : address).

(** *** Storage access *)

(** [stakingProviderInfo[p]] *)
Definition info_at (st : Storage) (p : address) : StakingProviderInfo :=
  default zero_info (stakingProviderInfo st !! p).

(** [operatorToStakingProvider[o]] *)
Definition provider_of (st : Storage) (o : address) : address :=
  default 0 (operatorToStakingProvider st !! o).

(** A write through the storage pointer [info = stakingProviderInfo[p]]. *)
Definition update_info (p : address)
    (f : StakingProviderInfo -> StakingProviderInfo) (st : Storage) : Storage :=
  {| _initialized := _initialized st;
     coordinator := coordinator st;
     stakingProviderInfo := <[p := f (info_at st p)]> (stakingProviderInfo st);
     stakingProviders := stakingProviders st;
     operatorToStakingProvider := operatorToStakingProvider st |}.

(** [operatorToStakingProvider[o] = p] *)
Definition set_provider_of (o p : address) (st : Storage) : Storage :=
  {| _initialized := _initialized st;
     coordinator := coordinator st;
     stakingProviderInfo := stakingProviderInfo st;
     stakingProviders := stakingProviders st;
     operatorToStakingProvider := <[o := p]> (operatorToStakingProvider st) |}.

(** [stakingProviders.push(p)] *)
Definition push_stakingProvider (p : address) (st : Storage) : Storage :=
  {| _initialized := _initialized st;
     coordinator := coordinator st;
     stakingProviderInfo := stakingProviderInfo st;
     stakingProviders := stakingProviders st ++ [p];
     operatorToStakingProvider := operatorToStakingProvider st |}.

Definition set_coordinator (a : address) (st : Storage) : Storage :=
  {| _initialized := _initialized st;
     coordinator := a;
     stakingProviderInfo := stakingProviderInfo st;
     stakingProviders := stakingProviders st;
     operatorToStakingProvider := operatorToStakingProvider st |}.

Definition set_initialized (v : Z) (st : Storage) : Storage :=
  {| _initialized := v;
     coordinator := coordinator st;
     stakingProviderInfo := stakingProviderInfo st;
     stakingProviders := stakingProviders st;
     operatorToStakingProvider := operatorToStakingProvider st |}.

(** All-zero storage, except for the initializer version [v]: [v = 0]
    behind a proxy, [v = 255] on the implementation itself, where the
    constructor ran [_disableInitializers()]. *)
Definition empty_storage (v : Z) : Storage :=
  {| _initialized := v;
     coordinator := 0;
     stakingProviderInfo := ∅;
     stakingProviders := [];
     operatorToStakingProvider := ∅ |}.

(** *** Functions of the contract *)

Definition constructor (self _rootApplication _minimumAuthorization : Z)
  : result (Contract * Storage) :=
  require (negb (_rootApplication =? 0))
    "Address for root application must be specified" ;;;
  require (0 <? _minimumAuthorization)
    "Minimum authorization must be specified" ;;;
  Ok ({| this := self; rootApplication := _rootApplication;
         minimumAuthorization := _minimumAuthorization |},
      empty_storage 255).

Definition initialize (c : Contract) (w : World) (_coordinator : address)
    (st : Storage) : result (Storage * list event) :=
  (* modifier initializer *)
  require (_initialized st <? 1)
    "Initializable: contract is already initialized" ;;;
  let st := set_initialized 1 st in
  require (coordinator st =? 0) "Coordinator already set" ;;;
  require (negb (_coordinator =? 0)) "Coordinator must be specified" ;;;
  application <- match coordinator_application w _coordinator with
                 | Some a => Ok a
                 | None => Revert Call_failed
                 end ;;
  require (application =? this c) "Invalid coordinator" ;;;
  Ok (set_coordinator _coordinator st, [Initialized 1]).

Definition authorizedStake (st : Storage) (_stakingProvider : address) : Z :=
  authorized (info_at st _stakingProvider).

Definition pendingAuthorizationDecrease (st : Storage)
    (_stakingProvider : address) : Z :=
  deauthorizing (info_at st _stakingProvider).

Definition eligibleStake (st : Storage) (_stakingProvider : address)
    (_endDate : Z) : result Z :=
  let info := info_at st _stakingProvider in
  let eligibleAmount := authorized info in
  if (0 <? endDeauthorization info) && (endDeauthorization info <? _endDate)
  then checked_sub eligibleAmount (deauthorizing info)
  else Ok eligibleAmount.

Definition _updateOperator (stakingProvider _operator : address)
    (st : Storage) : Storage * list event :=
  let oldOperator := operator (info_at st stakingProvider) in
  if (stakingProvider =? 0) || (_operator =? oldOperator) then (st, [])
  else
    let st :=
      if index (info_at st stakingProvider) =? 0 then
        let st := push_stakingProvider stakingProvider st in
        update_info stakingProvider
          (with_index (truncate 248 (Z.of_nat (length (stakingProviders st)))))
          st
      else st in
    let st := update_info stakingProvider (with_operator _operator) st in
    let st := set_provider_of oldOperator 0 st in
    let st :=
      if negb (_operator =? 0)
      then set_provider_of _operator stakingProvider st
      else st in
    let st := update_info stakingProvider (with_operatorConfirmed false) st in
    (st, [OperatorUpdated stakingProvider _operator]).

Definition _updateAuthorization (stakingProvider : address)
    (_authorized _deauthorizing _endDeauthorization : Z)
    (st : Storage) : Storage * list event :=
  let info := info_at st stakingProvider in
  if (stakingProvider =? 0) ||
     ((_authorized =? authorized info) &&
      (_deauthorizing =? deauthorizing info) &&
      (_endDeauthorization =? endDeauthorization info))
  then (st, [])
  else
    let st := update_info stakingProvider (with_authorized _authorized) st in
    let st := update_info stakingProvider (with_deauthorizing _deauthorizing) st in
    let st := update_info stakingProvider
                (with_endDeauthorization _endDeauthorization) st in
    (st, [AuthorizationUpdated stakingProvider
            _authorized _deauthorizing _endDeauthorization]).

Definition onlyRootApplication (c : Contract) (w : World) : result unit :=
  require (msg_sender w =? rootApplication c)
    "Caller must be the root application".

Definition updateOperator (c : Contract) (w : World)
    (stakingProvider _operator : address) (st : Storage)
  : result (Storage * list event) :=
  onlyRootApplication c w ;;;
  Ok (_updateOperator stakingProvider _operator st).

(** The two-argument overload, kept for backward compatibility. *)
Definition updateAuthorization2 (c : Contract) (w : World)
    (stakingProvider : address) (_authorized : Z) (st : Storage)
  : result (Storage * list event) :=
  onlyRootApplication c w ;;;
  Ok (_updateAuthorization stakingProvider _authorized 0 0 st).

Definition updateAuthorization (c : Contract) (w : World)
    (stakingProvider : address)
    (_authorized _deauthorizing _endDeauthorization : Z) (st : Storage)
  : result (Storage * list event) :=
  onlyRootApplication c w ;;;
  Ok (_updateAuthorization stakingProvider
        _authorized _deauthorizing _endDeauthorization st).

Definition confirmOperatorAddress (c : Contract) (w : World)
    (_operator : address) (st : Storage) : result (Storage * list event) :=
  require (msg_sender w =? coordinator st)
    "Only Coordinator allowed to confirm operator" ;;;
  let stakingProvider := provider_of st _operator in
  require (minimumAuthorization c <=? authorized (info_at st stakingProvider))
    "Authorization must be greater than minimum" ;;;
  require (negb (operatorConfirmed (info_at st stakingProvider)))
    "Can't confirm same operator twice" ;;;
  let st := update_info stakingProvider (with_operatorConfirmed true) st in
  (if root_confirms w _operator then Ok tt else Revert Call_failed) ;;;
  Ok (st, [OperatorConfirmed stakingProvider _operator]).

Definition getStakingProvidersLength (st : Storage) : Z :=
  Z.of_nat (length (stakingProviders st)).

(** [bytes32(bytes20(stakingProvider)) | bytes32(uint256(eligibleAmount))]:
    the address in the high 20 bytes, the amount in the low 12. *)
Definition pack (stakingProvider : address) (eligibleAmount : Z) : Z :=
  Z.lor (Z.shiftl stakingProvider 96) eligibleAmount.

(** The state of the loop of [getActiveStakingProviders]. *)
Record scan_state := {
  allAuthorizedTokens : Z;
  activeStakingProviders : list Z;
  resultIndex : Z
}.

(** [n] iterations of the loop body, starting at index [i]. *)
Fixpoint scan (c : Contract) (st : Storage) (endDate : Z)
    (n : nat) (i : Z) (s : scan_state) : result scan_state :=
  match n with
  | O => Ok s
  | S n' =>
      stakingProvider <- array_get (stakingProviders st) i ;;
      eligibleAmount <- eligibleStake st stakingProvider endDate ;;
      if (eligibleAmount <? minimumAuthorization c) ||
         negb (operatorConfirmed (info_at st stakingProvider))
      then scan c st endDate n' (i + 1) s
      else
        let arr := <[Z.to_nat (resultIndex s) :=
                       pack stakingProvider eligibleAmount]>
                     (activeStakingProviders s) in
        total <- checked_add 96 (allAuthorizedTokens s) eligibleAmount ;;
        scan c st endDate n' (i + 1)
          {| allAuthorizedTokens := total;
             activeStakingProviders := arr;
             resultIndex := resultIndex s + 1 |}
  end.

Definition getActiveStakingProviders (c : Contract) (w : World) (st : Storage)
    (_startIndex _maxStakingProviders _cohortDuration : Z)
  : result (Z * list Z) :=
  let endIndex := Z.of_nat (length (stakingProviders st)) in
  require (_startIndex <? endIndex) "Wrong start index" ;;;
  shorter <- (if negb (_maxStakingProviders =? 0)
              then e <- checked_add 256 _startIndex _maxStakingProviders ;;
                   Ok (e <? endIndex)
              else Ok false) ;;
  endIndex <- (if shorter : bool
               then checked_add 256 _startIndex _maxStakingProviders
               else Ok endIndex) ;;
  size <- checked_sub endIndex _startIndex ;;
  endDate <- (if _cohortDuration =? 0 then Ok (uint_max 256)
              else checked_add 256 (block_timestamp w) _cohortDuration) ;;
  s <- scan c st endDate (Z.to_nat size) _startIndex
         {| allAuthorizedTokens := 0;
            activeStakingProviders := replicate (Z.to_nat size) 0;
            resultIndex := 0 |} ;;
  (* mstore(activeStakingProviders, resultIndex) *)
  Ok (allAuthorizedTokens s,
      take (Z.to_nat (resultIndex s)) (activeStakingProviders s)).

(** The two-argument overload. *)
Definition getActiveStakingProviders2 (c : Contract) (w : World) (st : Storage)
    (_startIndex _maxStakingProviders : Z) : result (Z * list Z) :=
  getActiveStakingProviders c w st _startIndex _maxStakingProviders 0.

(** *** Transactions *)

Inductive call :=
| Initialize (_coordinator : address)
| UpdateOperator (stakingProvider _operator : address)
| UpdateAuthorization2 (stakingProvider : address) (_authorized : Z)
| UpdateAuthorization (stakingProvider : address)
    (_authorized _deauthorizing _endDeauthorization : Z)
| ConfirmOperatorAddress (_operator : address).

Definition execute (c : Contract) (w : World) (f : call) (st : Storage)
  : result (Storage * list event) :=
  match f with
  | Initialize a => initialize c w a st
  | UpdateOperator p o => updateOperator c w p o st
  | UpdateAuthorization2 p a => updateAuthorization2 c w p a st
  | UpdateAuthorization p a d e => updateAuthorization c w p a d e st
  | ConfirmOperatorAddress o => confirmOperatorAddress c w o st
  end.

(** A transaction commits or leaves the storage untouched. *)
Definition transact (c : Contract) (tx : World * call) (st : Storage) : Storage :=
  match execute c (fst tx) (snd tx) st with
  | Ok (st', _) => st'
  | Revert _ => st
  end.

Definition run (c : Contract) (txs : list (World * call)) (st : Storage)
  : Storage :=
  fold_left (fun s tx => transact c tx s) txs st.

(** Storage reachable from a fresh deployment. *)
Inductive reachable (c : Contract) : Storage -> Prop :=
| reachable_fresh v : reachable c (empty_storage v)
| reachable_step st tx :
    reachable c st -> reachable c (transact c tx st).

(** The immutables passed the checks of the constructor. *)
Definition deployed (c : Contract) : Prop :=
  exists st0,
    constructor (this c) (rootApplication c) (minimumAuthorization c)
    = Ok (c, st0).

(** The calls that commit and the storage they leave, read off the
    function bodies ([execute_commits] below). *)
Inductive commits (c : Contract) (w : World) (st : Storage)
  : call -> Storage -> Prop :=
| commits_initialize a :
    _initialized st < 1 -> coordinator st = 0 -> a <> 0 ->
    coordinator_application w a = Some (this c) ->
    commits c w st (Initialize a) (set_coordinator a (set_initialized 1 st))
| commits_updateOperator p o :
    msg_sender w = rootApplication c ->
    commits c w st (UpdateOperator p o) (fst (_updateOperator p o st))
| commits_updateAuthorization2 p a :
    msg_sender w = rootApplication c ->
    commits c w st (UpdateAuthorization2 p a)
      (fst (_updateAuthorization p a 0 0 st))
| commits_updateAuthorization p a d e :
    msg_sender w = rootApplication c ->
    commits c w st (UpdateAuthorization p a d e)
      (fst (_updateAuthorization p a d e st))
| commits_confirmOperatorAddress o :
    msg_sender w = coordinator st ->
    minimumAuthorization c <= authorized (info_at st (provider_of st o)) ->
    operatorConfirmed (info_at st (provider_of st o)) = false ->
    root_confirms w o = true ->
    commits c w st (ConfirmOperatorAddress o)
      (update_info (provider_of st o) (with_operatorConfirmed true) st).

End TACoChildApplication.

Import TACoChildApplication.

(** ** What the loop of [getActiveStakingProviders] computes *)

Module View.

(** The amount [eligibleStake] returns when its subtraction does not
    underflow. *)
Definition eligible_amount (st : Storage) (p : address) (endDate : Z) : Z :=
  let info := info_at st p in
  if (0 <? endDeauthorization info) && (endDeauthorization info <? endDate)
  then authorized info - deauthorizing info
  else authorized info.

(** The subtraction of [eligibleStake] does not underflow. *)
Definition no_underflow (st : Storage) (endDate : Z) (p : address) : Prop :=
  0 < endDeauthorization (info_at st p) < endDate ->
  deauthorizing (info_at st p) <= authorized (info_at st p).

(** The negation of the loop's [continue] condition. *)
Definition survives (c : Contract) (st : Storage) (endDate : Z)
    (p : address) : bool :=
  negb ((eligible_amount st p endDate <? minimumAuthorization c) ||
        negb (operatorConfirmed (info_at st p))).

Definition survivors (c : Contract) (st : Storage) (endDate : Z)
    (l : list Z) : list Z :=
  List.filter (survives c st endDate) l.

Definition record_of (st : Storage) (endDate : Z) (p : address) : Z :=
  pack p (eligible_amount st p endDate).

Definition total (l : list Z) : Z := foldr Z.add 0 l.

(** The sum of the amounts of the providers of [l] that survive. *)
Definition kept_total (c : Contract) (st : Storage) (endDate : Z)
    (l : list Z) : Z :=
  total (map (fun p => eligible_amount st p endDate)
           (survivors c st endDate l)).

(** [stakingProviders[from .. to)] *)
Definition slice (st : Storage) (from to : Z) : list Z :=
  take (Z.to_nat (to - from)) (drop (Z.to_nat from) (stakingProviders st)).

(** Where the scan stops. *)
Definition end_index (st : Storage) (startIndex maxStakingProviders : Z) : Z :=
  let len := Z.of_nat (length (stakingProviders st)) in
  if negb (maxStakingProviders =? 0) &&
     (startIndex + maxStakingProviders <? len)
  then startIndex + maxStakingProviders
  else len.

(** The horizon of the scan. *)
Definition end_date (w : World) (cohortDuration : Z) : Z :=
  if cohortDuration =? 0 then uint_max 256
  else block_timestamp w + cohortDuration.

(** The other half of a packed record. *)
Definition unpack (r : Z) : address * Z :=
  (Z.shiftr r 96, Z.land r (Z.ones 96)).

End View.

(** ** What the specification's sentence on the unpaged view says *)

Module Claimed.

(** "all providers with operatorConfirmed == true and
    authorized >= minimumAuthorization" *)
Definition active (c : Contract) (st : Storage) (p : address) : bool :=
  operatorConfirmed (info_at st p) &&
  (minimumAuthorization c <=? authorized (info_at st p)).

Definition providers (c : Contract) (st : Storage) : list Z :=
  List.filter (active c st) (stakingProviders st).

(** "summed amount equal to the sum of their authorized fields" *)
Definition amount (c : Contract) (st : Storage) : Z :=
  View.total (map (fun p => authorized (info_at st p)) (providers c st)).

End Claimed.

(** ** Invariants of the storage *)

Module Inv.

(** The zero address owns no record and no operator. *)
Definition zero_untouched (st : Storage) : Prop :=
  info_at st 0 = zero_info /\ provider_of st 0 = 0.

(** A live reverse entry points at the provider that names the operator. *)
Definition bound_back (st : Storage) : Prop :=
  forall o p, provider_of st o = p -> p <> 0 -> operator (info_at st p) = o.

(** [index] is the position in [stakingProviders] plus one, and zero for
    the providers that are not enumerated. *)
Definition enumerated (st : Storage) : Prop :=
  (forall (i : nat) q,
     stakingProviders st !! i = Some q ->
     index (info_at st q) = Z.of_nat i + 1) /\
  (forall q, index (info_at st q) <> 0 -> q ∈ stakingProviders st).

(** No call of the history binds a non-zero operator to [p]. *)
Definition never_assigned (p : address) (txs : list (World * call)) : Prop :=
  Forall (fun tx => forall o, snd tx = UpdateOperator p o -> o = 0) txs.

(** No call of the history is an [updateOperator]. *)
Definition no_updateOperator (txs : list (World * call)) : Prop :=
  Forall (fun tx => forall p o, snd tx <> UpdateOperator p o) txs.

End Inv.

(** ** Concrete deployments and histories *)

Module Scenario.

Definition c : Contract :=
  {| this := 3000; rootApplication := 1000; minimumAuthorization := 50 |}.

(** The coordinator lives at 2000 and names the registry at 3000. *)
Definition world (sender : address) : World :=
  {| msg_sender := sender;
     block_timestamp := 1700000000;
     coordinator_application :=
       fun a => if a =? 2000 then Some 3000 else None;
     root_confirms := fun _ => true |}.

Definition as_root : World := world 1000.
Definition as_coordinator : World := world 2000.
Definition as_anyone : World := world 77.

Definition A : address := 11.
Definition B : address := 12.
Definition O1 : address := 21.
Definition O2 : address := 22.

(** Behind a proxy: fresh storage, initializers enabled. *)
Definition fresh : Storage := empty_storage 0.

(** A bound to O1 with 100 authorized, coordinator set. *)
Definition bound : Storage :=
  run c [ (as_anyone, Initialize 2000);
          (as_root, UpdateOperator A O1);
          (as_root, UpdateAuthorization2 A 100) ] fresh.

(** ... and O1 confirmed. *)
Definition confirmed : Storage :=
  transact c (as_coordinator, ConfirmOperatorAddress O1) bound.

(** A is giving up 60 of its 100 from time 5 on. *)
Definition shrinking : Storage :=
  transact c (as_root, UpdateAuthorization A 100 60 5) confirmed.

(** The root application pushed a decrease larger than the stake. *)
Definition overdrawn : Storage :=
  transact c (as_root, UpdateAuthorization A 0 1 1) confirmed.

(** The calls that lead to the storage [two] below. *)
Definition history : list (World * call) :=
  [ (as_anyone, Initialize 2000);
    (as_root, UpdateOperator A O1);
    (as_root, UpdateAuthorization2 A 100);
    (as_coordinator, ConfirmOperatorAddress O1);
    (as_root, UpdateOperator B O2);
    (as_root, UpdateAuthorization B 70 20 1700000500);
    (as_coordinator, ConfirmOperatorAddress O2) ].

(** Two confirmed providers. *)
Definition two : Storage :=
  run c [ (as_root, UpdateOperator B O2);
          (as_root, UpdateAuthorization B 70 20 1700000500);
          (as_coordinator, ConfirmOperatorAddress O2) ] confirmed.

End Scenario.

(** ** Further histories *)

Module History.

(** No call of the history pushes an authorization for [p]. *)
Definition never_authorized (p : address) (txs : list (World * call)) : Prop :=
  Forall (fun tx =>
            (forall a, snd tx <> UpdateAuthorization2 p a) /\
            (forall a d e, snd tx <> UpdateAuthorization p a d e)) txs.

(** The three tables of the registry, without the coordinator and the
    initializer version. *)
Definition registry (st : Storage)
  : gmap Z StakingProviderInfo * list Z * gmap Z Z :=
  (stakingProviderInfo st, stakingProviders st, operatorToStakingProvider st).

(** The subtraction of [eligibleStake] underflows for [p]. *)
Definition underflows (st : Storage) (endDate : Z) (p : address) : Prop :=
  0 < endDeauthorization (info_at st p) < endDate /\
  authorized (info_at st p) < deauthorizing (info_at st p).

(** B is bound to O2 and owes more than it has; it was never confirmed. *)
Definition poisoned : Storage :=
  run Scenario.c
    [ (Scenario.as_root, UpdateOperator Scenario.B Scenario.O2);
      (Scenario.as_root, UpdateAuthorization Scenario.B 0 1 1) ]
    Scenario.confirmed.

(** A and B both name O1; the reverse entry of O1 points at B. *)
Definition shared : Storage :=
  run Scenario.c
    [ (Scenario.as_root, UpdateOperator Scenario.B Scenario.O1);
      (Scenario.as_root, UpdateAuthorization2 Scenario.B 80) ]
    Scenario.bound.

End History.

(** ** The testnet variant *)

Module Testnet.

(** [TestnetTACoChildApplication]: the registry, plus the members of
    [UPDATE_ROLE] kept by the inherited [AccessControlUpgradeable].  Of
    that library only what the three functions below use is modelled:
    [_grantRole] adds an account that is not yet a member and emits
    [RoleGranted] for it; [onlyRole] lets members through and reverts for
    everyone else, with an error that depends on the library version and
    is left as the parameter [missing_role]. *)
Record Storage := {
  registry : TACoChildApplication.Storage;
  updaters : gset Z
}.

Inductive event :=
| Registry (e : TACoChildApplication.event)
| RoleGranted (account sender : address).

(** [_grantRole(UPDATE_ROLE, account)] *)
Definition _grantRole (sender account : address) (members : gset Z)
  : gset Z * list event :=
  if bool_decide (account ∈ members) then (members, [])
  else ({[account]} ∪ members, [RoleGranted account sender]).

(** The loop of [initialize] over [updaters]. *)
Fixpoint grant_all (sender : address) (accounts : list Z) (members : gset Z)
  : gset Z * list event :=
  match accounts with
  | [] => (members, [])
  | account :: rest =>
      let '(members, evs) := _grantRole sender account members in
      let '(members, evs') := grant_all sender rest members in
      (members, evs ++ evs')
  end.

Definition initialize (w : World) (_coordinator : address)
    (accounts : list Z) (st : Storage) : result (Storage * list event) :=
  (* modifier initializer *)
  require (_initialized (registry st) <? 1)
    "Initializable: contract is already initialized" ;;;
  let reg := set_initialized 1 (registry st) in
  let reg := set_coordinator _coordinator reg in
  let '(members, evs) := grant_all (msg_sender w) accounts (updaters st) in
  Ok ({| registry := reg; updaters := members |},
      evs ++ [Registry (Initialized 1)]).

(** The initializer inherited from [TACoChildApplication]. *)
Definition initialize1 (c : Contract) (w : World) (_coordinator : address)
    (st : Storage) : result (Storage * list event) :=
  r <- TACoChildApplication.initialize c w _coordinator (registry st) ;;
  Ok ({| registry := fst r; updaters := updaters st |},
      map Registry (snd r)).

(** modifier [onlyRole(UPDATE_ROLE)] *)
Definition onlyRole (missing_role : address -> error) (w : World)
    (st : Storage) : result unit :=
  if bool_decide (msg_sender w ∈ updaters st) then Ok tt
  else Revert (missing_role (msg_sender w)).

Definition forceUpdateOperator (missing_role : address -> error) (w : World)
    (stakingProvider _operator : address) (st : Storage)
  : result (Storage * list event) :=
  onlyRole missing_role w st ;;;
  let r := _updateOperator stakingProvider _operator (registry st) in
  Ok ({| registry := fst r; updaters := updaters st |},
      map Registry (snd r)).

Definition forceUpdateAuthorization (missing_role : address -> error)
    (w : World) (stakingProvider : address)
    (_authorized _deauthorizing _endDeauthorization : Z) (st : Storage)
  : result (Storage * list event) :=
  onlyRole missing_role w st ;;;
  let r := _updateAuthorization stakingProvider
             _authorized _deauthorizing _endDeauthorization (registry st) in
  Ok ({| registry := fst r; updaters := updaters st |},
      map Registry (snd r)).

(** A testnet registry behind a proxy, before [initialize]. *)
Definition fresh : Storage :=
  {| registry := empty_storage 0; updaters := ∅ |}.

End Testnet.

(** ** The Coinbase wallet connector *)

Module Coinbase.

Definition GET_COINBASE_LINK : string := "https://www.coinbase.com/wallet".

(** An injected provider object, as far as the connector looks at it:
    which object it is, and its [isWalletLink] property ([None] when the
    property is absent). *)
Record injected := {
  ident : nat;
  isWalletLink : option bool
}.

(** The page the connector runs in.  [value] is the type of what an RPC
    call resolves to and [number] the type of what [parseInt] returns. *)
Record Browser (value : Type) := {
  (* window.ethereum, None when falsy; inside, window.ethereum.providers,
     None when falsy *)
  ethereum : option (option (list injected));
  (* what detectEthereumProvider() resolves to, None for null *)
  detected : option injected;
  (* new Web3Provider(p, 'any').send(method, []): the value it resolves
     to, or the message (None when undefined) of the error it rejects
     with *)
  send : injected -> string -> value + option string
}.
Arguments ethereum {value} _.
Arguments detected {value} _.
Arguments send {value} _ _ _.

Inductive effect (value number : Type) :=
| WindowOpen (url : string)
| ConsoleLogText (text : string)
| ConsoleLogError (message : option string)
| ConsoleDebugError (message : option string)
| Emit (chainId : number) (accounts : value).
Arguments WindowOpen {value number} _.
Arguments ConsoleLogText {value number} _.
Arguments ConsoleLogError {value number} _.
Arguments ConsoleDebugError {value number} _.
Arguments Emit {value number} _ _.

(** How an async method ends. *)
Inductive outcome :=
| Returns
| Throws (message : string).

(** [p.isWalletLink ?? false], and the truthiness of [p.isWalletLink]. *)
Definition flagged (p : injected) : bool := default false (isWalletLink p).

Definition not_installed : string :=
  String.append "Coinbase wallet is not installed - you can get it under "
    GET_COINBASE_LINK.

Definition getCoinbaseProvider {value number} (b : Browser value)
  : option injected * list (effect value number) :=
  match ethereum b with
  | None => (None, [WindowOpen GET_COINBASE_LINK])
  | Some providers =>
      let injectedProviders := default [] providers in
      let injectedProvider :=
        match List.find flagged injectedProviders with
        | Some p => Some p
        | None => detected b
        end in
      match injectedProvider with
      | None => (None, [ConsoleLogText not_installed])
      | Some p =>
          if negb (flagged p) then (None, [ConsoleLogText not_installed])
          else (Some p, [])
      end
  end.

(** The connector object: [this.provider]. *)
Definition connector := option injected.

Definition init {value number} (b : Browser value) (self : connector)
  : connector * list (effect value number) :=
  match self with
  | Some p => (Some p, [])
  | None => getCoinbaseProvider b
  end.

(** The body of the [try] blocks: two RPC calls, then the update.  It ends
    with the effects performed, or with the error that was thrown. *)
Definition announce {value number} (parseInt : value -> number)
    (b : Browser value) (p : injected) (accountsMethod : string)
  : list (effect value number) + option string :=
  match send b p "eth_chainId" with
  | inr e => inr e
  | inl chainId =>
      match send b p accountsMethod with
      | inr e => inr e
      | inl accounts => inl [Emit (parseInt chainId) accounts]
      end
  end.

Definition connectEagerly {value number} (parseInt : value -> number)
    (b : Browser value) (self : connector)
  : connector * outcome * list (effect value number) :=
  let '(self, effs) := init b self in
  match self with
  | None => (self, Returns, effs)
  | Some p =>
      match announce parseInt b p "eth_accounts" with
      | inl effs' => (self, Returns, effs ++ effs')
      | inr e => (self, Returns, effs ++ [ConsoleDebugError e])
      end
  end.

Definition activate {value number} (parseInt : value -> number)
    (b : Browser value) (self : connector)
  : connector * outcome * list (effect value number) :=
  let '(self, effs) := init b self in
  match self with
  | None => (self, Throws "Could not activate connector", effs)
  | Some p =>
      match announce parseInt b p "eth_requestAccounts" with
      | inl effs' => (self, Returns, effs ++ effs')
      | inr e =>
          (self,
           Throws (String.append "Could not activate connector: "
                     (default EmptyString e)),
           effs ++ [ConsoleLogError e])
      end
  end.

Definition deactivate (self : connector) : connector := None.

Definition is_emit {value number} (e : effect value number) : bool :=
  match e with Emit _ _ => true | _ => false end.

(** A page with a wallet extension next to the Coinbase one. *)
Definition page : Browser string :=
  {| ethereum := Some (Some [ {| ident := 1; isWalletLink := None |};
                              {| ident := 2; isWalletLink := Some true |} ]);
     detected := Some {| ident := 1; isWalletLink := None |};
     send := fun p method =>
       if String.eqb method "eth_chainId" then inl "0x89"%string
       else if String.eqb method "eth_requestAccounts"
            then inl "[0xabc]"%string
            else inr (Some "User denied"%string) |}.

(** A page without any injected provider. *)
Definition bare : Browser string :=
  {| ethereum := None; detected := None;
     send := fun _ _ => inr None |}.

End Coinbase.

(** ** Storage reads after storage writes *)

Section StorageLemmas.

Variable st : Storage.

Lemma info_at_update_info_eq p f :
  info_at (update_info p f st) p = f (info_at st p).
Proof. unfold info_at at 1. simpl. by rewrite lookup_insert_eq. Qed.

Lemma info_at_update_info_ne p q f :
  p <> q -> info_at (update_info p f st) q = info_at st q.
Proof. intros H. unfold info_at. simpl. by rewrite lookup_insert_ne. Qed.

Lemma info_at_update_info p q f :
  info_at (update_info p f st) q =
  if decide (p = q) then f (info_at st p) else info_at st q.
Proof.
  case_decide; subst.
  - apply info_at_update_info_eq.
  - by apply info_at_update_info_ne.
Qed.

Lemma provider_of_set_eq o p : provider_of (set_provider_of o p st) o = p.
Proof. unfold provider_of. simpl. by rewrite lookup_insert_eq. Qed.

Lemma provider_of_set_ne o o' p :
  o <> o' -> provider_of (set_provider_of o p st) o' = provider_of st o'.
Proof. intros H. unfold provider_of. simpl. by rewrite lookup_insert_ne. Qed.

Lemma provider_of_set o o' p :
  provider_of (set_provider_of o p st) o' =
  if decide (o = o') then p else provider_of st o'.
Proof.
  case_decide; subst.
  - apply provider_of_set_eq.
  - by apply provider_of_set_ne.
Qed.

Lemma info_at_set_provider_of o p q :
  info_at (set_provider_of o p st) q = info_at st q.
Proof. reflexivity. Qed.

Lemma info_at_push p q : info_at (push_stakingProvider p st) q = info_at st q.
Proof. reflexivity. Qed.

Lemma provider_of_update_info p f o :
  provider_of (update_info p f st) o = provider_of st o.
Proof. reflexivity. Qed.

End StorageLemmas.

Example scenario_confirmed :
  operatorConfirmed (info_at Scenario.confirmed Scenario.A) = true /\
  provider_of Scenario.confirmed Scenario.O1 = Scenario.A /\
  coordinator Scenario.confirmed = 2000 /\
  stakingProviders Scenario.two = [Scenario.A; Scenario.B].
Proof. vm_compute. repeat split; reflexivity. Qed.

(** ** The result monad *)

Lemma require_true msg : require true msg = Ok tt.
Proof. reflexivity. Qed.

Lemma require_false msg : require false msg = Revert (Require_failed msg).
Proof. reflexivity. Qed.

Lemma require_ok cond msg u : require cond msg = Ok u -> cond = true.
Proof. destruct cond; [reflexivity | discriminate]. Qed.

Lemma bind_ok {A B} (r : result A) (k : A -> result B) b :
  bind r k = Ok b -> exists a, r = Ok a /\ k a = Ok b.
Proof. destruct r; simpl; [eauto | discriminate]. Qed.

Lemma bind_require_ok {B} cond msg (k : unit -> result B) b :
  bind (require cond msg) k = Ok b -> cond = true /\ k tt = Ok b.
Proof. destruct cond; simpl; [auto | discriminate]. Qed.

(** Peel the successful prefix off a computation known to succeed. *)
Ltac inv_ok H :=
  repeat match type of H with
  | bind (require _ _) _ = Ok _ =>
      let Hc := fresh "Hreq" in
      apply bind_require_ok in H; destruct H as [Hc H]
  | bind _ _ = Ok _ =>
      let a := fresh "a" in
      let Ha := fresh "Ha" in
      apply bind_ok in H; destruct H as (a & Ha & H)
  | Ok _ = Ok _ => injection H as H
  end.

Lemma checked_sub_ok a b : b <= a -> checked_sub a b = Ok (a - b).
Proof. intros H. unfold checked_sub. by rewrite (proj2 (Z.leb_le _ _) H). Qed.

Lemma checked_sub_underflow a b : a < b -> checked_sub a b = Revert arithmetic_panic.
Proof. intros H. unfold checked_sub. by rewrite (proj2 (Z.leb_gt _ _) H). Qed.

Lemma checked_add_ok bits a b :
  a + b <= uint_max bits -> checked_add bits a b = Ok (a + b).
Proof. intros H. unfold checked_add. by rewrite (proj2 (Z.leb_le _ _) H). Qed.

Lemma checked_add_overflow bits a b :
  uint_max bits < a + b -> checked_add bits a b = Revert arithmetic_panic.
Proof. intros H. unfold checked_add. by rewrite (proj2 (Z.leb_gt _ _) H). Qed.

(** ** eligibleStake *)

Lemma eligibleStake_in_window st p endDate :
  0 < endDeauthorization (info_at st p) < endDate ->
  eligibleStake st p endDate =
  checked_sub (authorized (info_at st p)) (deauthorizing (info_at st p)).
Proof.
  intros [H1 H2]. unfold eligibleStake.
  apply Z.ltb_lt in H1, H2. by rewrite H1, H2.
Qed.

Lemma eligibleStake_out_of_window st p endDate :
  ~ 0 < endDeauthorization (info_at st p) < endDate ->
  eligibleStake st p endDate = Ok (authorized (info_at st p)).
Proof.
  intros H. unfold eligibleStake.
  destruct (0 <? _) eqn:H1; [| reflexivity].
  destruct (_ <? endDate) eqn:H2; [| reflexivity].
  apply Z.ltb_lt in H1, H2. lia.
Qed.

Lemma eligibleStake_amount st p endDate :
  View.no_underflow st endDate p ->
  eligibleStake st p endDate = Ok (View.eligible_amount st p endDate).
Proof.
  unfold View.no_underflow, View.eligible_amount. intros H.
  destruct (decide (0 < endDeauthorization (info_at st p) < endDate)) as [Hw | Hw].
  - rewrite eligibleStake_in_window by done.
    destruct Hw as [H1 H2]. pose proof (H (conj H1 H2)).
    apply Z.ltb_lt in H1, H2. rewrite H1, H2. simpl.
    by apply checked_sub_ok.
  - rewrite eligibleStake_out_of_window by done.
    destruct (0 <? _) eqn:H1; [| reflexivity].
    destruct (_ <? endDate) eqn:H2; [| reflexivity].
    apply Z.ltb_lt in H1, H2. lia.
Qed.

(** C3, as stated, fails on the code: with a pending decrease larger than
    the authorized amount inside the window, [eligibleStake] reverts and
    returns no amount at all. *)
Lemma eligibleStake_formula_counterexample :
  let info := info_at Scenario.overdrawn Scenario.A in
  0 < endDeauthorization info /\ endDeauthorization info < 2 /\
  eligibleStake Scenario.overdrawn Scenario.A 2 = Revert arithmetic_panic /\
  eligibleStake Scenario.overdrawn Scenario.A 2
    <> Ok (authorized info - deauthorizing info).
Proof. vm_compute. repeat split; discriminate. Qed.

(** C3 (amended): for every provider and every end date, [eligibleStake]
    returns [authorized - deauthorizing] when
    [0 < endDeauthorization < endDate] and [deauthorizing <= authorized],
    and returns [authorized] when [endDeauthorization = 0] or
    [endDate <= endDeauthorization]. *)
Theorem eligibleStake_formula st p endDate :
  (0 < endDeauthorization (info_at st p) < endDate ->
   deauthorizing (info_at st p) <= authorized (info_at st p) ->
   eligibleStake st p endDate =
   Ok (authorized (info_at st p) - deauthorizing (info_at st p))) /\
  (endDeauthorization (info_at st p) = 0 \/
   endDate <= endDeauthorization (info_at st p) ->
   eligibleStake st p endDate = Ok (authorized (info_at st p))).
Proof.
  split.
  - intros Hw Hle. rewrite eligibleStake_in_window by done.
    by apply checked_sub_ok.
  - intros H. apply eligibleStake_out_of_window. lia.
Qed.

Lemma eligibleStake_formula_witness :
  eligibleStake Scenario.shrinking Scenario.A 6 = Ok 40 /\
  eligibleStake Scenario.shrinking Scenario.A 5 = Ok 100.
Proof.
  split.
  - apply (proj1 (eligibleStake_formula Scenario.shrinking Scenario.A 6));
      vm_compute; [split; reflexivity | discriminate].
  - apply (proj2 (eligibleStake_formula Scenario.shrinking Scenario.A 5)).
    right. vm_compute. discriminate.
Defined.

(** ** updateAuthorization *)

Lemma _updateAuthorization_effective p a d e st :
  p <> 0 ->
  let st' := fst (_updateAuthorization p a d e st) in
  authorized (info_at st' p) = a /\
  deauthorizing (info_at st' p) = d /\
  endDeauthorization (info_at st' p) = e /\
  operator (info_at st' p) = operator (info_at st p) /\
  operatorConfirmed (info_at st' p) = operatorConfirmed (info_at st p) /\
  index (info_at st' p) = index (info_at st p).
Proof.
  intros Hp. unfold _updateAuthorization.
  destruct (p =? 0) eqn:E; [apply Z.eqb_eq in E; done |]. simpl.
  destruct (_ && _) eqn:Hsame; simpl.
  - apply andb_true_iff in Hsame as [Hsame H3].
    apply andb_true_iff in Hsame as [H1 H2].
    apply Z.eqb_eq in H1, H2, H3. by subst.
  - rewrite !info_at_update_info_eq. done.
Qed.

Lemma _updateAuthorization_other p q a d e st :
  p <> q ->
  info_at (fst (_updateAuthorization p a d e st)) q = info_at st q.
Proof.
  intros Hne. unfold _updateAuthorization.
  destruct (_ || _); simpl; [done |].
  by rewrite !info_at_update_info_ne.
Qed.

(** C10: [eligibleStake] is not total.  Inside the window a pending
    decrease larger than the authorized amount makes the checked
    subtraction revert; [updateAuthorization] stores whatever three values
    the root application sends, so such a record can be written; and with
    [deauthorizing <= authorized] the call returns the amount of the
    formula. *)
Theorem eligibleStake_not_total :
  (forall st p endDate,
     0 < endDeauthorization (info_at st p) < endDate ->
     authorized (info_at st p) < deauthorizing (info_at st p) ->
     eligibleStake st p endDate = Revert arithmetic_panic) /\
  (forall c w st p a d e,
     msg_sender w = rootApplication c -> p <> 0 ->
     exists st' evs,
       updateAuthorization c w p a d e st = Ok (st', evs) /\
       authorized (info_at st' p) = a /\
       deauthorizing (info_at st' p) = d /\
       endDeauthorization (info_at st' p) = e) /\
  (forall st p endDate,
     deauthorizing (info_at st p) <= authorized (info_at st p) ->
     eligibleStake st p endDate = Ok (View.eligible_amount st p endDate)).
Proof.
  split; [| split].
  - intros st p endDate Hw Hlt. rewrite eligibleStake_in_window by done.
    by apply checked_sub_underflow.
  - intros c w st p a d e Hs Hp.
    unfold updateAuthorization, onlyRootApplication.
    rewrite Hs, Z.eqb_refl. simpl.
    destruct (_updateAuthorization p a d e st) as [st' evs] eqn:E.
    exists st', evs. split; [done |].
    pose proof (_updateAuthorization_effective p a d e st Hp) as H.
    rewrite E in H. simpl in H. tauto.
  - intros st p endDate Hle. apply eligibleStake_amount. by intros _.
Qed.

Lemma eligibleStake_not_total_witness :
  eligibleStake Scenario.overdrawn Scenario.A 2 = Revert arithmetic_panic /\
  (exists st' evs,
     updateAuthorization Scenario.c Scenario.as_root Scenario.A 0 1 1
       Scenario.confirmed = Ok (st', evs) /\
     authorized (info_at st' Scenario.A) = 0 /\
     deauthorizing (info_at st' Scenario.A) = 1 /\
     endDeauthorization (info_at st' Scenario.A) = 1) /\
  eligibleStake Scenario.shrinking Scenario.A 6 = Ok 40.
Proof.
  destruct eligibleStake_not_total as (H1 & H2 & H3).
  split; [| split].
  - apply H1; vm_compute; [split |]; reflexivity.
  - apply H2; vm_compute; [reflexivity | discriminate].
  - apply (H3 Scenario.shrinking Scenario.A 6). vm_compute. discriminate.
Defined.

(** ** updateOperator *)

Section UpdateOperator.

Variables (p o : address) (st : Storage).

Let old := operator (info_at st p).
Let st' := fst (_updateOperator p o st).

Lemma _updateOperator_noop :
  p = 0 \/ o = old -> _updateOperator p o st = (st, []).
Proof.
  intros H. unfold _updateOperator. fold old.
  destruct (p =? 0) eqn:E1; [reflexivity |].
  destruct (o =? old) eqn:E2; [reflexivity |].
  apply Z.eqb_neq in E1, E2. lia.
Qed.

Hypothesis Hp : p <> 0.
Hypothesis Ho : o <> old.

Lemma _updateOperator_unfold :
  _updateOperator p o st =
  (let st :=
     if index (info_at st p) =? 0 then
       let st := push_stakingProvider p st in
       update_info p
         (with_index (truncate 248 (Z.of_nat (length (stakingProviders st)))))
         st
     else st in
   let st := update_info p (with_operator o) st in
   let st := set_provider_of old 0 st in
   let st := if negb (o =? 0) then set_provider_of o p st else st in
   let st := update_info p (with_operatorConfirmed false) st in
   (st, [OperatorUpdated p o])).
Proof.
  unfold _updateOperator. fold old.
  apply Z.eqb_neq in Hp, Ho. by rewrite Hp, Ho.
Qed.

Lemma _updateOperator_events :
  snd (_updateOperator p o st) = [OperatorUpdated p o].
Proof. by rewrite _updateOperator_unfold. Qed.

Lemma _updateOperator_info :
  info_at st' p =
  {| operator := o;
     authorized := authorized (info_at st p);
     operatorConfirmed := false;
     index := if index (info_at st p) =? 0
              then truncate 248 (Z.of_nat (length (stakingProviders st)) + 1)
              else index (info_at st p);
     deauthorizing := deauthorizing (info_at st p);
     endDeauthorization := endDeauthorization (info_at st p) |}.
Proof.
  unfold st'. rewrite _updateOperator_unfold. simpl.
  rewrite info_at_update_info_eq.
  destruct (negb (o =? 0)); rewrite ?info_at_set_provider_of;
    rewrite info_at_update_info_eq;
    (destruct (index (info_at st p) =? 0) eqn:E;
     [ rewrite info_at_update_info_eq; simpl;
       rewrite length_app; simpl;
       replace (Z.of_nat (length (stakingProviders st) + 1))
         with (Z.of_nat (length (stakingProviders st)) + 1) by lia;
       reflexivity
     | reflexivity ]).
Qed.

Lemma _updateOperator_info_other q :
  q <> p -> info_at st' q = info_at st q.
Proof.
  intros Hq. unfold st'. rewrite _updateOperator_unfold. simpl.
  rewrite info_at_update_info_ne by done.
  destruct (negb (o =? 0)); rewrite ?info_at_set_provider_of;
    rewrite info_at_update_info_ne by done;
    (destruct (index (info_at st p) =? 0);
     [ by rewrite info_at_update_info_ne | done ]).
Qed.

Lemma _updateOperator_provider_of x :
  provider_of st' x =
  if decide (o <> 0 /\ x = o) then p
  else if decide (x = old) then 0
  else provider_of st x.
Proof.
  unfold st'. rewrite _updateOperator_unfold. simpl.
  rewrite provider_of_update_info.
  assert (Hbase : forall s,
    provider_of s x = provider_of st x ->
    provider_of (set_provider_of old 0 (update_info p (with_operator o) s)) x
    = if decide (x = old) then 0 else provider_of st x).
  { intros s Hs. rewrite provider_of_set.
    case_decide; case_decide; try congruence.
    by rewrite provider_of_update_info. }
  destruct (o =? 0) eqn:E; simpl.
  - apply Z.eqb_eq in E.
    destruct (decide (o <> 0 /\ x = o)) as [Hd | Hd]; [lia |].
    apply Hbase. by destruct (index (info_at st p) =? 0).
  - apply Z.eqb_neq in E. rewrite provider_of_set.
    destruct (decide (o <> 0 /\ x = o)) as [Hd | Hd];
      destruct (decide (o = x)) as [Hx | Hx];
      try done; try (exfalso; apply Hd; by split).
    + destruct Hd as [_ Hd]. congruence.
    + apply Hbase. by destruct (index (info_at st p) =? 0).
Qed.

Lemma _updateOperator_stakingProviders :
  stakingProviders st' =
  if index (info_at st p) =? 0
  then stakingProviders st ++ [p]
  else stakingProviders st.
Proof.
  unfold st'. rewrite _updateOperator_unfold. simpl.
  destruct (negb (o =? 0)); by destruct (index (info_at st p) =? 0).
Qed.

End UpdateOperator.

Lemma _updateOperator_coordinator p o st :
  coordinator (fst (_updateOperator p o st)) = coordinator st /\
  _initialized (fst (_updateOperator p o st)) = _initialized st.
Proof.
  unfold _updateOperator.
  destruct (_ || _); simpl; [done |].
  destruct (negb (o =? 0)); by destruct (index (info_at st p) =? 0).
Qed.

Lemma updateOperator_as_root c w p o st :
  msg_sender w = rootApplication c ->
  updateOperator c w p o st = Ok (_updateOperator p o st).
Proof.
  intros H. unfold updateOperator, onlyRootApplication.
  by rewrite H, Z.eqb_refl.
Qed.

Lemma updateOperator_not_root c w p o st :
  msg_sender w <> rootApplication c ->
  updateOperator c w p o st =
  Revert (Require_failed "Caller must be the root application").
Proof.
  intros H. unfold updateOperator, onlyRootApplication.
  apply Z.eqb_neq in H. by rewrite H.
Qed.

(** C5: called by the root application, [updateOperator] changes nothing
    and emits nothing when the provider is the zero address or the
    operator is the provider's current one; otherwise it stores the new
    operator, clears the reverse entry of the previous operator, points
    the reverse entry of a non-zero new operator at the provider, resets
    [operatorConfirmed] and emits [OperatorUpdated]. *)
Theorem updateOperator_effect c w p o st :
  msg_sender w = rootApplication c ->
  (p = 0 \/ o = operator (info_at st p) ->
   updateOperator c w p o st = Ok (st, [])) /\
  (p <> 0 -> o <> operator (info_at st p) ->
   exists st',
     updateOperator c w p o st = Ok (st', [OperatorUpdated p o]) /\
     operator (info_at st' p) = o /\
     provider_of st' (operator (info_at st p)) = 0 /\
     (o <> 0 -> provider_of st' o = p) /\
     operatorConfirmed (info_at st' p) = false).
Proof.
  intros Hs. rewrite updateOperator_as_root by done. split.
  - intros H. by rewrite _updateOperator_noop.
  - intros Hp Ho.
    exists (fst (_updateOperator p o st)). split; [| split; [| split; [| split]]].
    + rewrite <- (_updateOperator_events p o st Hp Ho).
      by destruct (_updateOperator p o st).
    + by rewrite _updateOperator_info.
    + rewrite _updateOperator_provider_of by done.
      destruct (decide (o <> 0 /\ operator (info_at st p) = o)) as [H1 | H1];
        [destruct H1 as [_ H1]; congruence |].
      by destruct (decide (operator (info_at st p) = operator (info_at st p))).
    + intros Ho0. rewrite _updateOperator_provider_of by done.
      by destruct (decide (o <> 0 /\ o = o)) as [H1 | H1]; [| tauto].
    + by rewrite _updateOperator_info.
Qed.

Lemma updateOperator_effect_witness :
  updateOperator Scenario.c Scenario.as_root 0 Scenario.O2 Scenario.confirmed
    = Ok (Scenario.confirmed, []) /\
  exists st',
    updateOperator Scenario.c Scenario.as_root Scenario.A Scenario.O2
      Scenario.confirmed
    = Ok (st', [OperatorUpdated Scenario.A Scenario.O2]) /\
    operator (info_at st' Scenario.A) = Scenario.O2 /\
    provider_of st' Scenario.O1 = 0 /\
    (Scenario.O2 <> 0 -> provider_of st' Scenario.O2 = Scenario.A) /\
    operatorConfirmed (info_at st' Scenario.A) = false.
Proof.
  split.
  - apply (updateOperator_effect Scenario.c Scenario.as_root 0 Scenario.O2
             Scenario.confirmed); [reflexivity | left; reflexivity].
  - apply (updateOperator_effect Scenario.c Scenario.as_root
             Scenario.A Scenario.O2 Scenario.confirmed);
      [reflexivity | vm_compute; discriminate | vm_compute; discriminate].
Defined.

(** ** The scan of getActiveStakingProviders *)

Section Scan.

Variables (c : Contract) (st : Storage) (endDate : Z).

Hypothesis Hmin : 0 <= minimumAuthorization c.

Let keep := View.survivors c st endDate.
Let kept_total := View.kept_total c st endDate.

Lemma survivors_cons_skip p l :
  View.survives c st endDate p = false ->
  keep (p :: l) = keep l /\ kept_total (p :: l) = kept_total l.
Proof.
  intros H. unfold kept_total, View.kept_total, keep, View.survivors.
  simpl. by rewrite H.
Qed.

Lemma survivors_cons_keep p l :
  View.survives c st endDate p = true ->
  keep (p :: l) = p :: keep l /\
  kept_total (p :: l) = View.eligible_amount st p endDate + kept_total l.
Proof.
  intros H. unfold kept_total, View.kept_total, keep, View.survivors.
  simpl. by rewrite H.
Qed.

Lemma kept_total_nonneg l : 0 <= kept_total l.
Proof.
  induction l as [| p l IH]; [done |].
  destruct (View.survives c st endDate p) eqn:E.
  - destruct (survivors_cons_keep p l E) as [_ ->].
    unfold View.survives in E.
    apply negb_true_iff, orb_false_iff in E as [E _].
    apply Z.ltb_ge in E. lia.
  - by destruct (survivors_cons_skip p l E) as [_ ->].
Qed.

Lemma array_get_lookup (l : list Z) i x :
  0 <= i -> l !! Z.to_nat i = Some x -> array_get l i = Ok x.
Proof.
  intros Hi Hx. unfold array_get.
  destruct (i <? 0) eqn:E; [apply Z.ltb_lt in E; lia |]. by rewrite Hx.
Qed.

(** The loop invariant: the first [resultIndex] slots hold the records
    written so far, the rest of the array is still zero. *)
Lemma scan_spec n : forall i s pre m,
  0 <= i ->
  (Z.to_nat i + n <= length (stakingProviders st))%nat ->
  Forall (View.no_underflow st endDate)
    (take n (drop (Z.to_nat i) (stakingProviders st))) ->
  activeStakingProviders s = pre ++ replicate m 0 ->
  resultIndex s = Z.of_nat (length pre) ->
  (n <= m)%nat ->
  allAuthorizedTokens s
    + kept_total (take n (drop (Z.to_nat i) (stakingProviders st)))
    <= uint_max 96 ->
  scan c st endDate n i s =
  Ok (let sl := take n (drop (Z.to_nat i) (stakingProviders st)) in
      {| allAuthorizedTokens := allAuthorizedTokens s + kept_total sl;
         activeStakingProviders :=
           pre ++ map (View.record_of st endDate) (keep sl)
               ++ replicate (m - length (keep sl)) 0;
         resultIndex := resultIndex s + Z.of_nat (length (keep sl)) |}).
Proof.
  induction n as [| n IH]; intros i s pre m Hi Hlen Hsafe Harr Hidx Hm Hsum.
  - simpl. rewrite take_0.
    destruct s as [t a r]. simpl in *. subst a.
    unfold kept_total, View.kept_total. simpl.
    rewrite Z.add_0_r, Z.add_0_r, Nat.sub_0_r. reflexivity.
  - assert (Hlt : (Z.to_nat i < length (stakingProviders st))%nat) by lia.
    destruct (lookup_lt_is_Some_2 _ _ Hlt) as [p Hp].
    rewrite (drop_S _ _ _ Hp) in Hsafe, Hsum |- *.
    rewrite firstn_cons in Hsafe, Hsum |- *.
    replace (S (Z.to_nat i)) with (Z.to_nat (i + 1)) in Hsafe, Hsum |- * by lia.
    set (rest := take n (drop (Z.to_nat (i + 1)) (stakingProviders st))) in *.
    apply Forall_cons in Hsafe as [Hsafe_p Hsafe].
    cbn [scan]. rewrite (array_get_lookup _ _ _ Hi Hp). cbn [bind].
    rewrite (eligibleStake_amount _ _ _ Hsafe_p). cbn [bind].
    cbv zeta.
    destruct (View.survives c st endDate p) eqn:Hkeep.
    + destruct (survivors_cons_keep p rest Hkeep) as [Hk Ht].
      rewrite Hk, Ht in *. clear Hk Ht.
      unfold View.survives in Hkeep. apply negb_true_iff in Hkeep.
      rewrite Hkeep.
      pose proof (kept_total_nonneg rest) as Hnn.
      rewrite checked_add_ok by lia. cbn [bind].
      destruct m as [| m]; [lia |].
      rewrite (IH (i + 1) _ (pre ++ [View.record_of st endDate p]) m);
        cbn [allAuthorizedTokens activeStakingProviders resultIndex];
        try done; try lia.
      * cbv zeta. fold rest. f_equal. f_equal.
        -- lia.
        -- rewrite <- app_assoc. reflexivity.
        -- cbn [length]. lia.
      * rewrite Harr, Hidx, Nat2Z.id.
        rewrite insert_app_r_alt by lia. rewrite Nat.sub_diag.
        rewrite <- app_assoc. reflexivity.
      * rewrite length_app. simpl. lia.
      * fold rest. lia.
    + destruct (survivors_cons_skip p rest Hkeep) as [Hk Ht].
      rewrite Hk, Ht in *. clear Hk Ht.
      unfold View.survives in Hkeep. apply negb_false_iff in Hkeep.
      rewrite Hkeep.
      rewrite (IH (i + 1) s pre m); try done; lia.
Qed.

End Scan.

(** ** getActiveStakingProviders *)

Lemma unpack_pack p a :
  0 <= p -> 0 <= a < 2 ^ 96 -> View.unpack (pack p a) = (p, a).
Proof.
  intros Hp Ha. unfold View.unpack, pack. f_equal.
  - rewrite Z.shiftr_lor, Z.shiftr_shiftl_l by lia.
    rewrite Z.sub_diag, Z.shiftl_0_r.
    rewrite (Z.shiftr_div_pow2 a) by lia.
    rewrite Z.div_small by lia. apply Z.lor_0_r.
  - rewrite Z.land_lor_distr_l, !Z.land_ones by lia.
    rewrite Z.shiftl_mul_pow2 by lia.
    rewrite Z_mod_mult, Z.mod_small by lia. reflexivity.
Qed.

Lemma getActiveStakingProviders_wrong_start c w st start maxp cohort :
  Z.of_nat (length (stakingProviders st)) <= start ->
  getActiveStakingProviders c w st start maxp cohort =
  Revert (Require_failed "Wrong start index").
Proof.
  intros H. unfold getActiveStakingProviders.
  apply Z.ltb_ge in H. by rewrite H.
Qed.

Lemma getActiveStakingProviders_returns c w st start maxp cohort :
  0 <= minimumAuthorization c ->
  0 <= start -> 0 <= maxp ->
  start < Z.of_nat (length (stakingProviders st)) ->
  start + maxp <= uint_max 256 ->
  (cohort <> 0 -> block_timestamp w + cohort <= uint_max 256) ->
  let endDate := View.end_date w cohort in
  let scanned := View.slice st start (View.end_index st start maxp) in
  Forall (View.no_underflow st endDate) scanned ->
  View.kept_total c st endDate scanned <= uint_max 96 ->
  getActiveStakingProviders c w st start maxp cohort =
  Ok (View.kept_total c st endDate scanned,
      map (View.record_of st endDate) (View.survivors c st endDate scanned)).
Proof.
  intros Hmin Hs Hm Hlt Hadd Hnow endDate scanned Hsafe Hsum.
  unfold getActiveStakingProviders.
  rewrite (proj2 (Z.ltb_lt _ _) Hlt). cbn [require bind].
  set (len := Z.of_nat (length (stakingProviders st))) in *.
  assert (Hend :
    bind (if negb (maxp =? 0)
          then bind (checked_add 256 start maxp) (fun e => Ok (e <? len))
          else Ok false)
      (fun shorter : bool =>
         if shorter then checked_add 256 start maxp else Ok len)
    = Ok (View.end_index st start maxp)).
  { unfold View.end_index. fold len.
    destruct (maxp =? 0); cbn [negb andb bind]; [done |].
    rewrite checked_add_ok by done. cbn [bind].
    by destruct (start + maxp <? len). }
  assert (Hrange : start <= View.end_index st start maxp <= len).
  { unfold View.end_index. fold len.
    destruct (negb (maxp =? 0) && (start + maxp <? len)) eqn:E; [| lia].
    apply andb_true_iff in E as [_ E]. apply Z.ltb_lt in E. lia. }
  set (endIndex := View.end_index st start maxp) in *.
  transitivity
    (bind (Ok endIndex) (fun endIndex =>
       size <- checked_sub endIndex start ;;
       endDate <- (if cohort =? 0 then Ok (uint_max 256)
                   else checked_add 256 (block_timestamp w) cohort) ;;
       s <- scan c st endDate (Z.to_nat size) start
              {| allAuthorizedTokens := 0;
                 activeStakingProviders := replicate (Z.to_nat size) 0;
                 resultIndex := 0 |} ;;
       Ok (allAuthorizedTokens s,
           take (Z.to_nat (resultIndex s)) (activeStakingProviders s)))).
  { rewrite <- Hend.
    destruct (negb (maxp =? 0)); [| reflexivity].
    destruct (checked_add 256 start maxp) as [e |]; [| reflexivity].
    cbn [bind]. reflexivity. }
  cbn [bind]. rewrite checked_sub_ok by lia. cbn [bind].
  assert (Hdate :
    (if cohort =? 0 then Ok (uint_max 256)
     else checked_add 256 (block_timestamp w) cohort) = Ok endDate).
  { unfold endDate, View.end_date.
    destruct (cohort =? 0) eqn:E; [done |].
    apply Z.eqb_neq in E. by rewrite checked_add_ok by auto. }
  rewrite Hdate. cbn [bind].
  unfold scanned, View.slice in *. fold endIndex in Hsafe, Hsum |- *.
  rewrite (scan_spec c st endDate Hmin (Z.to_nat (endIndex - start)) start _
             [] (Z.to_nat (endIndex - start)));
    cbn [allAuthorizedTokens activeStakingProviders resultIndex app length];
    try done; try lia.
  cbn [bind]. cbv zeta.
  cbn [allAuthorizedTokens activeStakingProviders resultIndex app].
  f_equal. f_equal.
  rewrite Z.add_0_l, Nat2Z.id.
  apply take_app_length'. by rewrite length_map.
Qed.

(** An empty registry has no valid start index. *)
Example getActiveStakingProviders_empty :
  getActiveStakingProviders Scenario.c Scenario.as_anyone Scenario.fresh 0 0 0
  = Revert (Require_failed "Wrong start index").
Proof. reflexivity. Qed.

(** The scenario of the specification: before the confirmation A is left
    out, after it A is returned with amount 100. *)
Example getActiveStakingProviders_scenario :
  getActiveStakingProviders Scenario.c Scenario.as_anyone Scenario.bound 0 0 0
    = Ok (0, []) /\
  getActiveStakingProviders Scenario.c Scenario.as_anyone Scenario.confirmed 0 0 0
    = Ok (100, [pack Scenario.A 100]).
Proof. split; vm_compute; reflexivity. Qed.

(** C7, as stated, fails on the code: with two providers enumerated,
    start index 1 is in range and [1 + maxCount] exceeds the length for
    [maxCount = 2^256 - 1], yet the call does not scan to the end of the
    array and return B: the checked addition [_startIndex +
    _maxStakingProviders] reverts. *)
Lemma getActiveStakingProviders_paged_counterexample :
  1 < Z.of_nat (length (stakingProviders Scenario.two)) /\
  View.survivors Scenario.c Scenario.two (uint_max 256)
    (drop 1 (stakingProviders Scenario.two)) = [Scenario.B] /\
  getActiveStakingProviders Scenario.c Scenario.as_anyone Scenario.two
    1 (uint_max 256) 0 = Revert arithmetic_panic.
Proof. vm_compute. repeat split; reflexivity. Qed.

(** C7 (amended): [getActiveStakingProviders(startIndex, maxCount,
    cohortDuration)] fails with "Wrong start index" whenever
    [startIndex >= stakingProviders.length].  Otherwise, provided
    [startIndex + maxCount] and [now + cohortDuration] fit in 256 bits, no
    scanned provider has a pending decrease inside the horizon that
    exceeds its authorized amount, and the eligible total of the
    survivors fits in 96 bits, it scans exactly
    [stakingProviders[startIndex .. startIndex+maxCount)] (through the end
    of the array when [maxCount] is 0 or [startIndex + maxCount] is not
    below the length), skips every provider whose eligible stake at the
    horizon is below [minimumAuthorization] or whose operator is
    unconfirmed, and returns the records of the survivors, in order and
    without gaps, together with their eligible total. *)
Theorem getActiveStakingProviders_paged c w st start maxp cohort :
  0 <= minimumAuthorization c ->
  0 <= start -> 0 <= maxp ->
  (Z.of_nat (length (stakingProviders st)) <= start ->
   getActiveStakingProviders c w st start maxp cohort =
   Revert (Require_failed "Wrong start index")) /\
  (start < Z.of_nat (length (stakingProviders st)) ->
   start + maxp <= uint_max 256 ->
   (cohort <> 0 -> block_timestamp w + cohort <= uint_max 256) ->
   let endDate := View.end_date w cohort in
   let scanned := View.slice st start (View.end_index st start maxp) in
   Forall (View.no_underflow st endDate) scanned ->
   View.kept_total c st endDate scanned <= uint_max 96 ->
   getActiveStakingProviders c w st start maxp cohort =
   Ok (View.kept_total c st endDate scanned,
       map (View.record_of st endDate)
         (View.survivors c st endDate scanned))).
Proof.
  intros Hmin Hs Hm. split.
  - apply getActiveStakingProviders_wrong_start.
  - intros. by apply getActiveStakingProviders_returns.
Qed.

(** [Forall P l] on a closed list: evaluate the list, then each instance. *)
Ltac forall_by_computation :=
  cbv zeta;
  match goal with
  | |- Forall ?P ?l =>
      let l' := eval vm_compute in l in
      change (Forall P l'); repeat constructor; by vm_compute
  end.

Lemma getActiveStakingProviders_paged_witness :
  getActiveStakingProviders Scenario.c Scenario.as_anyone Scenario.two 2 1 1000
    = Revert (Require_failed "Wrong start index") /\
  getActiveStakingProviders Scenario.c Scenario.as_anyone Scenario.two 1 1 1000
    = Ok (50, [pack Scenario.B 50]) /\
  getActiveStakingProviders Scenario.c Scenario.as_anyone Scenario.two 0 5 100
    = Ok (170, [pack Scenario.A 100; pack Scenario.B 70]).
Proof.
  split; [| split].
  - exact (proj1 (getActiveStakingProviders_paged Scenario.c
                    Scenario.as_anyone Scenario.two 2 1 1000
                    ltac:(by vm_compute) ltac:(by vm_compute)
                    ltac:(by vm_compute))
             ltac:(by vm_compute)).
  - rewrite (proj2 (getActiveStakingProviders_paged Scenario.c
                      Scenario.as_anyone Scenario.two 1 1 1000
                      ltac:(by vm_compute) ltac:(by vm_compute)
                      ltac:(by vm_compute))).
    + vm_compute. reflexivity.
    + by vm_compute.
    + by vm_compute.
    + intros _. by vm_compute.
    + forall_by_computation.
    + by vm_compute.
  - rewrite (proj2 (getActiveStakingProviders_paged Scenario.c
                      Scenario.as_anyone Scenario.two 0 5 100
                      ltac:(by vm_compute) ltac:(by vm_compute)
                      ltac:(by vm_compute))).
    + vm_compute. reflexivity.
    + by vm_compute.
    + by vm_compute.
    + intros _. by vm_compute.
    + forall_by_computation.
    + by vm_compute.
Defined.

Lemma eligible_amount_no_deauthorization st p endDate :
  endDeauthorization (info_at st p) = 0 ->
  View.eligible_amount st p endDate = authorized (info_at st p).
Proof. intros H. unfold View.eligible_amount. by rewrite H. Qed.

Lemma survivors_claimed c st endDate l :
  Forall (fun p => endDeauthorization (info_at st p) = 0) l ->
  View.survivors c st endDate l = List.filter (Claimed.active c st) l /\
  View.kept_total c st endDate l =
  View.total (map (fun p => authorized (info_at st p))
                (List.filter (Claimed.active c st) l)).
Proof.
  unfold View.kept_total, View.survivors.
  induction 1 as [| p l Hp _ [IH1 IH2]]; [done |]. simpl.
  assert (E : View.survives c st endDate p = Claimed.active c st p).
  { unfold View.survives, Claimed.active.
    rewrite eligible_amount_no_deauthorization by done.
    rewrite negb_orb, negb_involutive, Z.leb_antisym. apply andb_comm. }
  rewrite E. destruct (Claimed.active c st p); simpl.
  - rewrite eligible_amount_no_deauthorization by done.
    split; [by rewrite IH1 | by rewrite IH2].
  - done.
Qed.

(** C1, as stated, fails on the code: A is confirmed and has
    [authorized = 100 >= 50], so the sentence puts A in the result with
    amount 100, but A is giving up 60 and a zero cohort duration means an
    unbounded horizon: the code finds an eligible stake of 40, leaves A
    out and returns a total of 0. *)
Lemma getActiveStakingProviders_all_counterexample :
  Claimed.providers Scenario.c Scenario.shrinking = [Scenario.A] /\
  Claimed.amount Scenario.c Scenario.shrinking = 100 /\
  getActiveStakingProviders Scenario.c Scenario.as_anyone Scenario.shrinking
    0 0 0 = Ok (0, []).
Proof. vm_compute. repeat split; reflexivity. Qed.

(** C1 (amended): for every registry state with at least one enumerated
    provider, in which no enumerated provider has a pending decrease
    larger than its authorized amount and the total fits in 96 bits,
    [getActiveStakingProviders(0, 0, 0)] returns the records of exactly the
    providers in [stakingProviders] that have [operatorConfirmed == true]
    and an eligible stake over the unbounded horizon (authorized, less
    deauthorizing when a decrease is pending) of at least
    [minimumAuthorization], and [allAuthorizedTokens] is the sum of those
    eligible stakes.  When no enumerated provider has a pending decrease,
    these are the providers with [authorized >= minimumAuthorization] and
    the sum of their authorized fields. *)
Theorem getActiveStakingProviders_all c w st :
  0 <= minimumAuthorization c ->
  stakingProviders st <> [] ->
  Forall (View.no_underflow st (uint_max 256)) (stakingProviders st) ->
  View.kept_total c st (uint_max 256) (stakingProviders st) <= uint_max 96 ->
  getActiveStakingProviders c w st 0 0 0 =
  Ok (View.kept_total c st (uint_max 256) (stakingProviders st),
      map (View.record_of st (uint_max 256))
        (View.survivors c st (uint_max 256) (stakingProviders st))) /\
  (Forall (fun p => endDeauthorization (info_at st p) = 0)
     (stakingProviders st) ->
   View.survivors c st (uint_max 256) (stakingProviders st)
     = Claimed.providers c st /\
   View.kept_total c st (uint_max 256) (stakingProviders st)
     = Claimed.amount c st).
Proof.
  intros Hmin Hne Hsafe Hsum. split.
  - assert (Hslice : View.slice st 0 (View.end_index st 0 0)
                     = stakingProviders st).
    { unfold View.slice, View.end_index. simpl.
      rewrite Z.sub_0_r, Nat2Z.id. apply firstn_all. }
    pose proof (getActiveStakingProviders_returns c w st 0 0 0) as H.
    cbv zeta in H. rewrite Hslice in H. apply H; try done.
    destruct (stakingProviders st); [done | simpl; lia].
  - intros Hnone. by apply survivors_claimed.
Qed.

Lemma getActiveStakingProviders_all_witness :
  getActiveStakingProviders Scenario.c Scenario.as_anyone Scenario.two 0 0 0
    = Ok (150, [pack Scenario.A 100; pack Scenario.B 50]) /\
  getActiveStakingProviders Scenario.c Scenario.as_anyone Scenario.confirmed 0 0 0
    = Ok (Claimed.amount Scenario.c Scenario.confirmed,
          map (fun p => pack p (authorized (info_at Scenario.confirmed p)))
            (Claimed.providers Scenario.c Scenario.confirmed)).
Proof.
  split.
  - rewrite (proj1 (getActiveStakingProviders_all Scenario.c
                      Scenario.as_anyone Scenario.two
                      ltac:(by vm_compute) ltac:(by vm_compute)
                      ltac:(forall_by_computation)
                      ltac:(by vm_compute))).
    vm_compute. reflexivity.
  - rewrite (proj1 (getActiveStakingProviders_all Scenario.c
                      Scenario.as_anyone Scenario.confirmed
                      ltac:(by vm_compute) ltac:(by vm_compute)
                      ltac:(forall_by_computation)
                      ltac:(by vm_compute))).
    vm_compute. reflexivity.
Defined.

(** ** Transactions *)

Lemma deployed_checks c :
  deployed c -> rootApplication c <> 0 /\ 0 < minimumAuthorization c.
Proof.
  intros [st0 H]. unfold constructor in H. inv_ok H.
  apply negb_true_iff, Z.eqb_neq in Hreq. apply Z.ltb_lt in Hreq0. done.
Qed.

Example scenario_deployed : deployed Scenario.c.
Proof. by exists (empty_storage 255). Qed.

Lemma execute_commits c w f st st' evs :
  execute c w f st = Ok (st', evs) -> commits c w st f st'.
Proof.
  destruct f as [a | p o | p a | p a d e | o]; simpl;
    unfold initialize, updateOperator, updateAuthorization2,
      updateAuthorization, confirmOperatorAddress, onlyRootApplication;
    intros H; inv_ok H.
  - destruct (coordinator_application w a) as [app |] eqn:Happ;
      [| discriminate].
    injection Ha as <-. subst st'.
    apply Z.ltb_lt in Hreq. apply Z.eqb_eq in Hreq0, Hreq2.
    apply negb_true_iff, Z.eqb_neq in Hreq1.
    constructor; try done. by rewrite Happ, Hreq2.
  - apply Z.eqb_eq in Hreq.
    replace st' with (fst (_updateOperator p o st)) by (by rewrite H).
    by constructor.
  - apply Z.eqb_eq in Hreq.
    replace st' with (fst (_updateAuthorization p a 0 0 st)) by (by rewrite H).
    by constructor.
  - apply Z.eqb_eq in Hreq.
    replace st' with (fst (_updateAuthorization p a d e st)) by (by rewrite H).
    by constructor.
  - destruct (root_confirms w o) eqn:Hroot; [| discriminate].
    subst st'. apply Z.eqb_eq in Hreq. apply Z.leb_le in Hreq0.
    apply negb_true_iff in Hreq1. by constructor.
Qed.

(** A transaction leaves the storage as it was, or commits. *)
Lemma transact_cases c tx st :
  transact c tx st = st \/ commits c (fst tx) st (snd tx) (transact c tx st).
Proof.
  unfold transact.
  destruct (execute c (fst tx) (snd tx) st) as [[st' evs] | e] eqn:E.
  - right. by eapply execute_commits.
  - by left.
Qed.

Lemma run_snoc c txs tx st :
  run c (txs ++ [tx]) st = transact c tx (run c txs st).
Proof. unfold run. by rewrite fold_left_app. Qed.

Lemma run_cons c tx txs st :
  run c (tx :: txs) st = run c txs (transact c tx st).
Proof. reflexivity. Qed.

Lemma reachable_run c txs st : reachable c st -> reachable c (run c txs st).
Proof.
  revert st. induction txs as [| tx txs IH]; intros st H; [done |].
  rewrite run_cons. apply IH. by constructor.
Qed.

(** Facts about a write that touches only [operatorConfirmed], or only the
    authorization fields. *)
Lemma _updateAuthorization_keeps p a d e st q :
  let st' := fst (_updateAuthorization p a d e st) in
  operator (info_at st' q) = operator (info_at st q) /\
  operatorConfirmed (info_at st' q) = operatorConfirmed (info_at st q) /\
  index (info_at st' q) = index (info_at st q) /\
  provider_of st' q = provider_of st q /\
  stakingProviders st' = stakingProviders st /\
  coordinator st' = coordinator st.
Proof.
  unfold _updateAuthorization.
  destruct (_ || _); simpl; [done |].
  destruct (decide (p = q)) as [-> | Hne].
  - by rewrite !info_at_update_info_eq.
  - by rewrite !info_at_update_info_ne.
Qed.

Lemma _updateAuthorization_zero a d e st :
  _updateAuthorization 0 a d e st = (st, []).
Proof. reflexivity. Qed.

Lemma _updateOperator_cases p o st :
  _updateOperator p o st = (st, []) \/
  (p <> 0 /\ o <> operator (info_at st p)).
Proof.
  destruct (decide (p = 0)) as [-> | Hp].
  - left. apply _updateOperator_noop. by left.
  - destruct (decide (o = operator (info_at st p))) as [-> | Ho].
    + left. apply _updateOperator_noop. by right.
    + by right.
Qed.

Lemma _updateAuthorization_cases p a d e st :
  _updateAuthorization p a d e st = (st, []) \/ p <> 0.
Proof.
  destruct (decide (p = 0)) as [-> | Hp]; [by left | by right].
Qed.

(** ** Invariants *)

Section Invariants.

Variable c : Contract.
Hypothesis Hdeployed : deployed c.

Lemma zero_untouched_fresh v : Inv.zero_untouched (empty_storage v).
Proof. by split. Qed.

Lemma zero_untouched_step st tx :
  Inv.zero_untouched st -> Inv.zero_untouched (transact c tx st).
Proof.
  intros [Hinfo Hprov].
  destruct (transact_cases c tx st) as [-> | Hc]; [done |].
  destruct tx as [w f]. simpl in Hc.
  inversion Hc as [a | p o Hs | p a Hs | p a d e Hs | o Hs Hauth Hconf Hroot];
    subst; clear Hc.
  - done.
  - destruct (_updateOperator_cases p o st) as [-> | [Hp Ho]]; [done |].
    split.
    + by rewrite _updateOperator_info_other.
    + rewrite _updateOperator_provider_of by done.
      destruct (decide (o <> 0 /\ 0 = o)) as [[? ?] | _]; [congruence |].
      by destruct (decide (0 = operator (info_at st p))).
  - destruct (_updateAuthorization_cases p a 0 0 st) as [-> | Hp]; [done |].
    split; [by rewrite _updateAuthorization_other | done ||
      by destruct (_updateAuthorization_keeps p a 0 0 st 0) as (_&_&_&->&_)].
  - destruct (_updateAuthorization_cases p a d e st) as [-> | Hp]; [done |].
    split; [by rewrite _updateAuthorization_other | done ||
      by destruct (_updateAuthorization_keeps p a d e st 0) as (_&_&_&->&_)].
  - destruct (decide (provider_of st o = 0)) as [E | E].
    + rewrite E, Hinfo in Hauth. simpl in Hauth.
      destruct (deployed_checks c Hdeployed). lia.
    + split; [by rewrite info_at_update_info_ne | done].
Qed.

Lemma zero_untouched_reachable st : reachable c st -> Inv.zero_untouched st.
Proof.
  induction 1; [apply zero_untouched_fresh | by apply zero_untouched_step].
Qed.

Lemma bound_back_fresh v : Inv.bound_back (empty_storage v).
Proof. intros o p H Hp. by rewrite <- H in Hp. Qed.

Lemma bound_back_step st tx :
  Inv.bound_back st -> Inv.bound_back (transact c tx st).
Proof.
  intros Hinv.
  destruct (transact_cases c tx st) as [-> | Hc]; [done |].
  destruct tx as [w f]. simpl in Hc.
  inversion Hc as [a | p o Hs | p a Hs | p a d e Hs | o Hs Hauth Hconf Hroot];
    subst; clear Hc.
  - done.
  - destruct (_updateOperator_cases p o st) as [-> | [Hp Ho]]; [done |].
    intros x q Hx Hq. rewrite _updateOperator_provider_of in Hx by done.
    destruct (decide (o <> 0 /\ x = o)) as [[_ ->] | _].
    + subst q. by rewrite _updateOperator_info.
    + destruct (decide (x = operator (info_at st p))) as [-> | Hne];
        [congruence |].
      destruct (decide (q = p)) as [-> | Hqp].
      * by specialize (Hinv x p Hx Hq).
      * rewrite _updateOperator_info_other by done. by apply Hinv.
  - intros x q Hx Hq.
    destruct (_updateAuthorization_keeps p a 0 0 st q) as (-> & _).
    destruct (_updateAuthorization_keeps p a 0 0 st x) as (_ & _ & _ & E & _).
    rewrite E in Hx. by apply Hinv.
  - intros x q Hx Hq.
    destruct (_updateAuthorization_keeps p a d e st q) as (-> & _).
    destruct (_updateAuthorization_keeps p a d e st x) as (_ & _ & _ & E & _).
    rewrite E in Hx. by apply Hinv.
  - intros x q Hx Hq. rewrite provider_of_update_info in Hx.
    rewrite info_at_update_info.
    destruct (decide (provider_of st o = q)) as [E | E]; simpl.
    + rewrite E. by apply Hinv.
    + by apply Hinv.
Qed.

Lemma bound_back_reachable st : reachable c st -> Inv.bound_back st.
Proof.
  induction 1; [apply bound_back_fresh | by apply bound_back_step].
Qed.

End Invariants.

(** ** The enumeration of the providers *)

Lemma truncate_small bits x :
  0 <= bits -> 0 <= x < 2 ^ bits -> truncate bits x = x.
Proof.
  intros Hb Hx. unfold truncate.
  rewrite Z.land_ones by done. by apply Z.mod_small.
Qed.

Lemma call_updateOperator_dec f :
  (exists p o, f = UpdateOperator p o) \/ (forall p o, f <> UpdateOperator p o).
Proof. destruct f; [right | left | right | right | right]; eauto; done. Qed.

(** What a committed call other than [updateOperator] leaves alone. *)
Lemma commits_frame c w st f st' :
  commits c w st f st' ->
  (forall p o, f <> UpdateOperator p o) ->
  stakingProviders st' = stakingProviders st /\
  forall q,
    operator (info_at st' q) = operator (info_at st q) /\
    index (info_at st' q) = index (info_at st q) /\
    provider_of st' q = provider_of st q /\
    (operatorConfirmed (info_at st q) = true ->
     operatorConfirmed (info_at st' q) = true).
Proof.
  intros Hc Hf.
  inversion Hc as [a | p o Hs | p a Hs | p a d e Hs | o Hs Hauth Hconf Hroot];
    subst; clear Hc.
  - done.
  - by destruct (Hf p o).
  - split; [by destruct (_updateAuthorization_keeps p a 0 0 st 0) as (_&_&_&_&->&_) |].
    intros q.
    destruct (_updateAuthorization_keeps p a 0 0 st q) as (-> & -> & -> & -> & _).
    done.
  - split; [by destruct (_updateAuthorization_keeps p a d e st 0) as (_&_&_&_&->&_) |].
    intros q.
    destruct (_updateAuthorization_keeps p a d e st q) as (-> & -> & -> & -> & _).
    done.
  - split; [done |]. intros q.
    rewrite provider_of_update_info, info_at_update_info.
    by destruct (decide (provider_of st o = q)) as [<- | ?].
Qed.

Lemma transact_updateOperator c w p o st :
  transact c (w, UpdateOperator p o) st = st \/
  (p <> 0 /\ o <> operator (info_at st p) /\
   msg_sender w = rootApplication c /\
   transact c (w, UpdateOperator p o) st = fst (_updateOperator p o st)).
Proof.
  destruct (decide (msg_sender w = rootApplication c)) as [Hs | Hs].
  - unfold transact. simpl. rewrite updateOperator_as_root by done.
    destruct (_updateOperator_cases p o st) as [-> | [Hp Ho]]; [by left |].
    right. by destruct (_updateOperator p o st).
  - left. unfold transact. simpl. by rewrite updateOperator_not_root.
Qed.

Lemma stakingProviders_step c st tx :
  stakingProviders (transact c tx st) = stakingProviders st \/
  exists p, stakingProviders (transact c tx st) = stakingProviders st ++ [p].
Proof.
  destruct tx as [w f].
  destruct (call_updateOperator_dec f) as [(p & o & ->) | Hf].
  - destruct (transact_updateOperator c w p o st)
      as [-> | (Hp & Ho & _ & ->)]; [by left |].
    rewrite _updateOperator_stakingProviders by done.
    destruct (_ =? 0); [right; by exists p | by left].
  - destruct (transact_cases c (w, f) st) as [-> | Hc]; [by left |].
    left. by eapply commits_frame.
Qed.

Lemma stakingProviders_length_step c st tx :
  (length (stakingProviders st)
   <= length (stakingProviders (transact c tx st)))%nat.
Proof.
  destruct (stakingProviders_step c st tx) as [-> | [p ->]]; [done |].
  rewrite length_app. lia.
Qed.

Lemma enumerated_fresh v : Inv.enumerated (empty_storage v).
Proof. split; [intros i q H; by destruct i | by intros q H]. Qed.

Lemma enumerated_step c st tx :
  Inv.enumerated st ->
  Z.of_nat (length (stakingProviders (transact c tx st))) < 2 ^ 248 ->
  Inv.enumerated (transact c tx st).
Proof.
  intros [Hpos Hin] Hlen.
  destruct tx as [w f].
  destruct (call_updateOperator_dec f) as [(p & o & ->) | Hf];
    [| destruct (transact_cases c (w, f) st) as [E | Hc]; [by rewrite E |]].
  - destruct (transact_updateOperator c w p o st)
      as [Et | (Hp & Ho & _ & Et)]; rewrite Et in Hlen |- *; [done |].
    clear Et. unfold Inv.enumerated.
    rewrite _updateOperator_stakingProviders in Hlen |- * by done.
    destruct (index (info_at st p) =? 0) eqn:E.
    + apply Z.eqb_eq in E. rewrite length_app in Hlen. simpl in Hlen.
      split.
      * intros i q Hi.
        destruct (decide (i < length (stakingProviders st))%nat) as [Hlt | Hge].
        -- rewrite lookup_app_l in Hi by done.
           pose proof (Hpos i q Hi) as Hq.
           assert (q <> p) by (intros ->; lia).
           by rewrite _updateOperator_info_other.
        -- rewrite lookup_app_r in Hi by lia.
           destruct (i - length (stakingProviders st))%nat as [| k] eqn:Ek;
             [| by rewrite lookup_cons_ne_0, lookup_nil in Hi].
           injection Hi as <-. rewrite _updateOperator_info by done. simpl.
           apply Z.eqb_eq in E. rewrite E.
           rewrite truncate_small by lia. lia.
      * intros q Hq. apply elem_of_app.
        destruct (decide (q = p)) as [-> | Hne]; [right; by apply list_elem_of_singleton |].
        left. apply Hin. by rewrite _updateOperator_info_other in Hq.
    + split.
      * intros i q Hi.
        destruct (decide (q = p)) as [-> | Hne].
        -- rewrite _updateOperator_info by done. simpl. rewrite E. by apply Hpos.
        -- rewrite _updateOperator_info_other by done. by apply Hpos.
      * intros q Hq. apply Hin.
        destruct (decide (q = p)) as [-> | Hne].
        -- apply Z.eqb_neq in E. done.
        -- by rewrite _updateOperator_info_other in Hq.
  - destruct (commits_frame c w st f _ Hc Hf) as [Hl Hq].
    unfold Inv.enumerated. rewrite Hl. split.
    + intros i q Hi. destruct (Hq q) as (_ & -> & _). by apply Hpos.
    + intros q Hne. apply Hin. by destruct (Hq q) as (_ & <- & _).
Qed.

Lemma enumerated_run c v txs :
  Z.of_nat (length (stakingProviders (run c txs (empty_storage v)))) < 2 ^ 248 ->
  Inv.enumerated (run c txs (empty_storage v)).
Proof.
  induction txs as [| tx txs IH] using rev_ind; intros Hlen.
  - apply enumerated_fresh.
  - rewrite run_snoc in Hlen |- *. apply enumerated_step; [| done].
    apply IH.
    pose proof (stakingProviders_length_step c
                  (run c txs (empty_storage v)) tx). lia.
Qed.

Lemma enumerated_NoDup st : Inv.enumerated st -> NoDup (stakingProviders st).
Proof.
  intros [Hpos _]. apply NoDup_alt. intros i j q Hi Hj.
  pose proof (Hpos i q Hi). pose proof (Hpos j q Hj). lia.
Qed.

Lemma never_assigned_run c v p txs :
  Inv.never_assigned p txs ->
  let st := run c txs (empty_storage v) in
  operator (info_at st p) = 0 /\
  index (info_at st p) = 0 /\
  p ∉ stakingProviders st.
Proof.
  induction txs as [| tx txs IH] using rev_ind; intros Hnever.
  - simpl. split; [done | split; [done | apply not_elem_of_nil]].
  - unfold Inv.never_assigned in Hnever.
    rewrite Forall_app, Forall_singleton in Hnever.
    destruct Hnever as [Hnever Htx].
    destruct (IH Hnever) as (Hop & Hidx & Hnot). clear IH.
    cbv zeta. rewrite run_snoc.
    set (st := run c txs (empty_storage v)) in *.
    destruct tx as [w f]. simpl in Htx.
    destruct (call_updateOperator_dec f) as [(q & o & ->) | Hf];
      [| destruct (transact_cases c (w, f) st) as [-> | Hc]; [done |]].
    + destruct (transact_updateOperator c w q o st)
        as [-> | (Hq & Ho & _ & ->)]; [done |].
      destruct (decide (q = p)) as [-> | Hne].
      * specialize (Htx o eq_refl). congruence.
      * rewrite _updateOperator_info_other by done.
        rewrite _updateOperator_stakingProviders by done.
        split; [done | split; [done |]].
        destruct (_ =? 0); [| done].
        rewrite elem_of_app, list_elem_of_singleton. intros [? | ?]; done.
    + destruct (commits_frame c w st f _ Hc Hf) as [Hl Hq].
      rewrite Hl. by destruct (Hq p) as (-> & -> & _).
Qed.

(** C6: after every sequence of calls on a fresh registry (calls to
    [updateOperator] in particular), as long as the array holds fewer than
    2^248 entries, so that its length fits the [uint248] index: each
    provider appears at most once in [stakingProviders]; a provider that
    no call bound to a non-zero operator does not appear in it and has
    [index == 0]; and the index of an enumerated provider is its position
    plus one. *)
Theorem stakingProviders_enumeration c txs v p :
  let st := run c txs (empty_storage v) in
  Z.of_nat (length (stakingProviders st)) < 2 ^ 248 ->
  NoDup (stakingProviders st) /\
  (Inv.never_assigned p txs ->
   (p ∉ stakingProviders st) /\ index (info_at st p) = 0) /\
  (forall (i : nat) q,
     stakingProviders st !! i = Some q ->
     index (info_at st q) = Z.of_nat i + 1).
Proof.
  intros st Hlen. pose proof (enumerated_run c v txs Hlen) as Henum.
  split; [by apply enumerated_NoDup | split].
  - intros Hnever.
    by destruct (never_assigned_run c v p txs Hnever) as (_ & ? & ?).
  - apply Henum.
Qed.

Lemma stakingProviders_enumeration_witness :
  let st := run Scenario.c Scenario.history Scenario.fresh in
  NoDup (stakingProviders st) /\
  ((13 ∉ stakingProviders st) /\ index (info_at st 13) = 0) /\
  (forall (i : nat) q,
     stakingProviders st !! i = Some q ->
     index (info_at st q) = Z.of_nat i + 1).
Proof.
  destruct (stakingProviders_enumeration Scenario.c Scenario.history 0 13
              ltac:(by vm_compute)) as (H1 & H2 & H3).
  split; [exact H1 | split; [| exact H3]].
  apply H2. unfold Inv.never_assigned, Scenario.history.
  repeat constructor; simpl; intros o H; discriminate.
Defined.

(** ** initialize *)

Lemma coordinator_step c st tx :
  coordinator st <> 0 -> coordinator (transact c tx st) = coordinator st.
Proof.
  intros Hset.
  destruct (transact_cases c tx st) as [-> | Hc]; [done |].
  destruct tx as [w f]. simpl in Hc.
  inversion Hc as [a | p o Hs | p a Hs | p a d e Hs | o Hs Hauth Hconf Hroot];
    subst; clear Hc.
  - done.
  - by destruct (_updateOperator_coordinator p o st).
  - by destruct (_updateAuthorization_keeps p a 0 0 st 0) as (_&_&_&_&_&->).
  - by destruct (_updateAuthorization_keeps p a d e st 0) as (_&_&_&_&_&->).
  - done.
Qed.

Lemma coordinator_run c txs st :
  coordinator st <> 0 -> coordinator (run c txs st) = coordinator st.
Proof.
  revert st. induction txs as [| tx txs IH]; intros st Hset; [done |].
  rewrite run_cons, IH; rewrite coordinator_step; done.
Qed.

Lemma initialize_already_set c w a st :
  coordinator st <> 0 -> exists e, initialize c w a st = Revert e.
Proof.
  intros Hset. unfold initialize.
  destruct (_initialized st <? 1); simpl; [| eauto].
  apply Z.eqb_neq in Hset. rewrite Hset. simpl. eauto.
Qed.

(** C8: [initialize] fails when the coordinator is already set, when its
    argument is the zero address, and when the coordinator named by the
    argument does not record this registry as its application.  When it
    succeeds it stores its argument as the coordinator; after that, no
    sequence of calls changes the coordinator and every further call of
    [initialize], with any argument, fails. *)
Theorem initialize_once c w a st :
  (coordinator st <> 0 -> exists e, initialize c w a st = Revert e) /\
  (_initialized st < 1 -> coordinator st <> 0 ->
   initialize c w a st = Revert (Require_failed "Coordinator already set")) /\
  (a = 0 -> exists e, initialize c w a st = Revert e) /\
  (coordinator_application w a <> Some (this c) ->
   exists e, initialize c w a st = Revert e) /\
  (forall st' evs,
     initialize c w a st = Ok (st', evs) ->
     coordinator st' = a /\ a <> 0 /\
     forall txs,
       coordinator (run c txs st') = a /\
       forall w' a', exists e,
         initialize c w' a' (run c txs st') = Revert e).
Proof.
  split; [apply initialize_already_set | split; [| split; [| split]]].
  - intros Hv Hset. unfold initialize.
    apply Z.ltb_lt in Hv. apply Z.eqb_neq in Hset. rewrite Hv. simpl.
    by rewrite Hset.
  - intros ->. unfold initialize.
    destruct (_initialized st <? 1); simpl; [| eauto].
    destruct (coordinator st =? 0); simpl; eauto.
  - intros Happ. unfold initialize.
    destruct (_initialized st <? 1); simpl; [| eauto].
    destruct (coordinator st =? 0); simpl; [| eauto].
    destruct (negb (a =? 0)); simpl; [| eauto].
    destruct (coordinator_application w a) as [app |]; simpl; [| eauto].
    destruct (app =? this c) eqn:E; simpl; [| eauto].
    apply Z.eqb_eq in E. congruence.
  - intros st' evs H.
    pose proof (execute_commits c w (Initialize a) st st' evs H) as Hc.
    inversion Hc; subst. simpl.
    split; [done | split; [done |]]. intros txs.
    assert (Hrun : coordinator
                     (run c txs (set_coordinator a (set_initialized 1 st))) = a)
      by (by rewrite coordinator_run).
    split; [done |]. intros w' a'.
    apply initialize_already_set. by rewrite Hrun.
Qed.

Lemma initialize_once_witness :
  (exists e, initialize Scenario.c Scenario.as_anyone 2000 Scenario.bound
             = Revert e) /\
  (exists e, initialize Scenario.c Scenario.as_anyone 0 Scenario.fresh
             = Revert e) /\
  (exists e, initialize Scenario.c Scenario.as_anyone 2001 Scenario.fresh
             = Revert e) /\
  (exists st' evs,
     initialize Scenario.c Scenario.as_anyone 2000 Scenario.fresh
       = Ok (st', evs) /\
     coordinator st' = 2000 /\ 2000 <> 0 /\
     forall txs,
       coordinator (run Scenario.c txs st') = 2000 /\
       forall w' a', exists e,
         initialize Scenario.c w' a' (run Scenario.c txs st') = Revert e).
Proof.
  split; [| split; [| split]].
  - destruct (initialize_once Scenario.c Scenario.as_anyone 2000 Scenario.bound)
      as (H & _).
    apply H. by vm_compute.
  - destruct (initialize_once Scenario.c Scenario.as_anyone 0 Scenario.fresh)
      as (_ & _ & H & _).
    by apply H.
  - destruct (initialize_once Scenario.c Scenario.as_anyone 2001 Scenario.fresh)
      as (_ & _ & _ & H & _).
    apply H. by vm_compute.
  - destruct (initialize_once Scenario.c Scenario.as_anyone 2000 Scenario.fresh)
      as (_ & _ & _ & _ & H).
    eexists _, _. split; [reflexivity |]. eapply H. reflexivity.
Defined.

(** ** confirmOperatorAddress *)

Lemma confirmOperatorAddress_not_coordinator c w o st :
  msg_sender w <> coordinator st ->
  confirmOperatorAddress c w o st =
  Revert (Require_failed "Only Coordinator allowed to confirm operator").
Proof.
  intros H. unfold confirmOperatorAddress.
  apply Z.eqb_neq in H. by rewrite H.
Qed.

Lemma confirmOperatorAddress_below_minimum c w o st :
  msg_sender w = coordinator st ->
  authorized (info_at st (provider_of st o)) < minimumAuthorization c ->
  confirmOperatorAddress c w o st =
  Revert (Require_failed "Authorization must be greater than minimum").
Proof.
  intros Hs H. unfold confirmOperatorAddress.
  rewrite Hs, Z.eqb_refl. simpl.
  apply Z.leb_gt in H. by rewrite H.
Qed.

Lemma confirmOperatorAddress_twice c w o st :
  msg_sender w = coordinator st ->
  minimumAuthorization c <= authorized (info_at st (provider_of st o)) ->
  operatorConfirmed (info_at st (provider_of st o)) = true ->
  confirmOperatorAddress c w o st =
  Revert (Require_failed "Can't confirm same operator twice").
Proof.
  intros Hs Ha H. unfold confirmOperatorAddress.
  rewrite Hs, Z.eqb_refl. simpl.
  apply Z.leb_le in Ha. by rewrite Ha, H.
Qed.

Lemma confirmOperatorAddress_reverts c w o st :
  authorized (info_at st (provider_of st o)) < minimumAuthorization c \/
  operatorConfirmed (info_at st (provider_of st o)) = true ->
  exists e, confirmOperatorAddress c w o st = Revert e.
Proof.
  intros H.
  destruct (decide (msg_sender w = coordinator st)) as [Hs | Hs];
    [| rewrite confirmOperatorAddress_not_coordinator by done; eauto].
  destruct (decide (authorized (info_at st (provider_of st o))
                    < minimumAuthorization c)) as [Ha | Ha];
    [rewrite confirmOperatorAddress_below_minimum by done; eauto |].
  destruct H as [H | H]; [done |].
  rewrite confirmOperatorAddress_twice by (done || lia). eauto.
Qed.

(** Without [updateOperator], a confirmation stays and the reverse
    mapping does not move. *)
Lemma confirmed_stays c txs : forall st o,
  Inv.no_updateOperator txs ->
  operatorConfirmed (info_at st (provider_of st o)) = true ->
  provider_of (run c txs st) o = provider_of st o /\
  operatorConfirmed (info_at (run c txs st) (provider_of st o)) = true.
Proof.
  induction txs as [| [w f] txs IH]; intros st o Hno Hconf; [done |].
  unfold Inv.no_updateOperator in Hno. apply Forall_cons in Hno as [Hf Hno].
  simpl in Hf. rewrite run_cons.
  destruct (transact_cases c (w, f) st) as [-> | Hc]; [by apply IH |].
  destruct (commits_frame c w st f _ Hc Hf) as [_ Hq].
  destruct (Hq o) as (_ & _ & Ho & _).
  destruct (Hq (provider_of st o)) as (_ & _ & _ & Hkeep).
  destruct (IH (transact c (w, f) st) o Hno) as [H1 H2].
  - rewrite Ho. by apply Hkeep.
  - rewrite H1, Ho. split; [done |]. by rewrite Ho in H2.
Qed.

(** C4: [confirmOperatorAddress] fails when the provider found through
    [operatorToStakingProvider] has less than [minimumAuthorization]
    authorized, and fails when that provider is already confirmed; called
    by the coordinator, the messages are those of the two [require]s.
    After a successful confirmation and any calls other than
    [updateOperator], a second confirmation of the same operator fails. *)
Theorem confirmOperatorAddress_rejects c w o st :
  (authorized (info_at st (provider_of st o)) < minimumAuthorization c ->
   (exists e, confirmOperatorAddress c w o st = Revert e) /\
   (msg_sender w = coordinator st ->
    confirmOperatorAddress c w o st =
    Revert (Require_failed "Authorization must be greater than minimum"))) /\
  (operatorConfirmed (info_at st (provider_of st o)) = true ->
   (exists e, confirmOperatorAddress c w o st = Revert e) /\
   (msg_sender w = coordinator st ->
    minimumAuthorization c <= authorized (info_at st (provider_of st o)) ->
    confirmOperatorAddress c w o st =
    Revert (Require_failed "Can't confirm same operator twice"))) /\
  (forall st1 evs txs w2,
     confirmOperatorAddress c w o st = Ok (st1, evs) ->
     Inv.no_updateOperator txs ->
     exists e, confirmOperatorAddress c w2 o (run c txs st1) = Revert e).
Proof.
  split; [| split].
  - intros H. split.
    + apply confirmOperatorAddress_reverts. by left.
    + intros Hs. by apply confirmOperatorAddress_below_minimum.
  - intros H. split.
    + apply confirmOperatorAddress_reverts. by right.
    + intros Hs Ha. by apply confirmOperatorAddress_twice.
  - intros st1 evs txs w2 Hok Hno.
    pose proof (execute_commits c w (ConfirmOperatorAddress o) st st1 evs Hok)
      as Hc.
    inversion Hc as [| | | | o' Hs Hauth Hconf Hroot Ho Hst]; subst. clear Hc.
    set (st1 := update_info (provider_of st o)
                  (with_operatorConfirmed true) st) in *.
    assert (Hp : provider_of st1 o = provider_of st o) by done.
    assert (Hnow : operatorConfirmed (info_at st1 (provider_of st1 o)) = true)
      by (rewrite Hp; unfold st1; by rewrite info_at_update_info_eq).
    destruct (confirmed_stays c txs st1 o Hno Hnow) as [Hsame Hstill].
    apply confirmOperatorAddress_reverts. right. by rewrite Hsame.
Qed.

Lemma confirmOperatorAddress_rejects_witness :
  confirmOperatorAddress Scenario.c Scenario.as_coordinator Scenario.O2
    Scenario.confirmed
  = Revert (Require_failed "Authorization must be greater than minimum") /\
  confirmOperatorAddress Scenario.c Scenario.as_coordinator Scenario.O1
    Scenario.confirmed
  = Revert (Require_failed "Can't confirm same operator twice") /\
  exists st1 evs,
    confirmOperatorAddress Scenario.c Scenario.as_coordinator Scenario.O1
      Scenario.bound = Ok (st1, evs) /\
    exists e,
      confirmOperatorAddress Scenario.c Scenario.as_coordinator Scenario.O1
        (run Scenario.c
           [(Scenario.as_root, UpdateAuthorization Scenario.A 90 0 0)] st1)
      = Revert e.
Proof.
  split; [| split].
  - destruct (confirmOperatorAddress_rejects Scenario.c Scenario.as_coordinator
                Scenario.O2 Scenario.confirmed) as (H & _).
    apply H; by vm_compute.
  - destruct (confirmOperatorAddress_rejects Scenario.c Scenario.as_coordinator
                Scenario.O1 Scenario.confirmed) as (_ & H & _).
    apply H; by vm_compute.
  - destruct (confirmOperatorAddress_rejects Scenario.c Scenario.as_coordinator
                Scenario.O1 Scenario.bound) as (_ & _ & H).
    eexists _, _. split; [reflexivity |].
    eapply H; [reflexivity |].
    repeat constructor. simpl. intros p o. discriminate.
Defined.

Example scenario_reachable :
  reachable Scenario.c Scenario.bound /\
  reachable Scenario.c Scenario.confirmed /\
  reachable Scenario.c Scenario.two.
Proof.
  assert (H1 : reachable Scenario.c Scenario.bound)
    by (apply reachable_run; constructor).
  assert (H2 : reachable Scenario.c Scenario.confirmed) by (by constructor).
  split; [done | split; [done |]]. by apply reachable_run.
Qed.

(** C9: in a registry deployed through the constructor, an operator with
    no provider behind it cannot be confirmed.  The lookup gives the zero
    address, whose record is never written, so its authorized amount is 0,
    below the positive [minimumAuthorization]. *)
Theorem confirmOperatorAddress_unbound c st w o :
  deployed c -> reachable c st ->
  provider_of st o = 0 ->
  authorized (info_at st (provider_of st o)) = 0 /\
  0 < minimumAuthorization c /\
  (exists e, confirmOperatorAddress c w o st = Revert e) /\
  (msg_sender w = coordinator st ->
   confirmOperatorAddress c w o st =
   Revert (Require_failed "Authorization must be greater than minimum")).
Proof.
  intros Hdep Hreach Hnone.
  destruct (zero_untouched_reachable c Hdep st Hreach) as [Hzero _].
  destruct (deployed_checks c Hdep) as [_ Hmin].
  assert (Hauth : authorized (info_at st (provider_of st o)) = 0)
    by (by rewrite Hnone, Hzero).
  split; [done | split; [done | split]].
  - apply confirmOperatorAddress_reverts. left. lia.
  - intros Hs. apply confirmOperatorAddress_below_minimum; [done | lia].
Qed.

Lemma confirmOperatorAddress_unbound_witness :
  authorized (info_at Scenario.confirmed
                (provider_of Scenario.confirmed Scenario.O2)) = 0 /\
  0 < minimumAuthorization Scenario.c /\
  (exists e, confirmOperatorAddress Scenario.c Scenario.as_coordinator
               Scenario.O2 Scenario.confirmed = Revert e) /\
  (msg_sender Scenario.as_coordinator = coordinator Scenario.confirmed ->
   confirmOperatorAddress Scenario.c Scenario.as_coordinator
     Scenario.O2 Scenario.confirmed =
   Revert (Require_failed "Authorization must be greater than minimum")).
Proof.
  apply (confirmOperatorAddress_unbound Scenario.c Scenario.confirmed
           Scenario.as_coordinator Scenario.O2).
  - exists (empty_storage 255). reflexivity.
  - unfold Scenario.confirmed, Scenario.bound.
    apply reachable_step, reachable_run, reachable_fresh.
  - vm_compute. reflexivity.
Defined.

(** ** The confirmation flag *)

Lemma commits_confirms c w st f st' p :
  commits c w st f st' ->
  (forall q o, f <> UpdateOperator q o) ->
  operatorConfirmed (info_at st p) = false ->
  operatorConfirmed (info_at st' p) = true ->
  exists o,
    f = ConfirmOperatorAddress o /\
    msg_sender w = coordinator st /\
    provider_of st o = p /\
    minimumAuthorization c <= authorized (info_at st p).
Proof.
  intros Hc Hf Hfalse Htrue.
  destruct Hc as [a | q o Hs | q a Hs | q a d e Hs | o Hs Hauth Hconf Hroot].
  - simpl in Htrue. change (operatorConfirmed (info_at st p) = true) in Htrue.
    congruence.
  - by destruct (Hf q o).
  - destruct (_updateAuthorization_keeps q a 0 0 st p) as (_ & E & _).
    congruence.
  - destruct (_updateAuthorization_keeps q a d e st p) as (_ & E & _).
    congruence.
  - rewrite info_at_update_info in Htrue.
    destruct (decide (provider_of st o = p)) as [E | E]; [| congruence].
    exists o. by rewrite <- E.
Qed.

(** C2, as stated, fails on the code: the flag of A is true after the
    coordinator confirmed O1, and rebinding A to O2 through
    [updateOperator] puts it back to false. *)
Lemma operatorConfirmed_transitions_counterexample :
  reachable Scenario.c Scenario.confirmed /\
  operatorConfirmed (info_at Scenario.confirmed Scenario.A) = true /\
  operatorConfirmed
    (info_at (transact Scenario.c
                (Scenario.as_root, UpdateOperator Scenario.A Scenario.O2)
                Scenario.confirmed) Scenario.A) = false.
Proof.
  split; [apply scenario_reachable |]. vm_compute. split; reflexivity.
Qed.

(** C2 (amended): for every provider and every call on a reachable
    registry, [operatorConfirmed] goes from false to true only when the
    coordinator calls [confirmOperatorAddress] for the operator currently
    bound to that provider, and goes from true back to false only when
    the root application calls [updateOperator] to rebind that provider to
    a different operator. *)
Theorem operatorConfirmed_transitions c st tx p :
  deployed c -> reachable c st ->
  let st' := transact c tx st in
  (operatorConfirmed (info_at st p) = false ->
   operatorConfirmed (info_at st' p) = true ->
   exists o,
     snd tx = ConfirmOperatorAddress o /\
     msg_sender (fst tx) = coordinator st /\
     provider_of st o = p /\ p <> 0 /\
     operator (info_at st p) = o) /\
  (operatorConfirmed (info_at st p) = true ->
   operatorConfirmed (info_at st' p) = false ->
   exists o,
     snd tx = UpdateOperator p o /\
     msg_sender (fst tx) = rootApplication c /\
     p <> 0 /\ o <> operator (info_at st p)).
Proof.
  intros Hdep Hreach st'.
  pose proof (zero_untouched_reachable c Hdep st Hreach) as [Hzero _].
  pose proof (bound_back_reachable c st Hreach) as Hback.
  destruct (deployed_checks c Hdep) as [_ Hmin].
  destruct tx as [w f]. unfold st'. clear st'. simpl.
  destruct (call_updateOperator_dec f) as [(q & o & ->) | Hf].
  - destruct (transact_updateOperator c w q o st)
      as [-> | (Hq & Ho & Hs & ->)]; [split; congruence |].
    destruct (decide (q = p)) as [-> | Hne].
    + rewrite _updateOperator_info by done. simpl.
      split; [congruence |]. intros _ _. by exists o.
    + rewrite _updateOperator_info_other by done. split; congruence.
  - destruct (transact_cases c (w, f) st) as [-> | Hc]; [split; congruence |].
    simpl in Hc. split.
    + intros Hfalse Htrue.
      destruct (commits_confirms c w st f _ p Hc Hf Hfalse Htrue)
        as (o & -> & Hs & E & Hauth).
      assert (Hp : p <> 0).
      { intros ->. rewrite Hzero in Hauth. simpl in Hauth. lia. }
      exists o. repeat split; try done. by apply Hback.
    + intros Htrue Hfalse.
      destruct (commits_frame c w st f _ Hc Hf) as [_ Hq].
      destruct (Hq p) as (_ & _ & _ & Hkeep). rewrite Hkeep in Hfalse; done.
Qed.

Lemma operatorConfirmed_transitions_witness :
  (exists o,
     ConfirmOperatorAddress Scenario.O1 = ConfirmOperatorAddress o /\
     msg_sender Scenario.as_coordinator = coordinator Scenario.bound /\
     provider_of Scenario.bound o = Scenario.A /\ Scenario.A <> 0 /\
     operator (info_at Scenario.bound Scenario.A) = o) /\
  (exists o,
     UpdateOperator Scenario.A Scenario.O2 = UpdateOperator Scenario.A o /\
     msg_sender Scenario.as_root = rootApplication Scenario.c /\
     Scenario.A <> 0 /\ o <> operator (info_at Scenario.confirmed Scenario.A)).
Proof.
  split.
  - destruct (operatorConfirmed_transitions Scenario.c Scenario.bound
                (Scenario.as_coordinator, ConfirmOperatorAddress Scenario.O1)
                Scenario.A) as [H _].
    + exists (empty_storage 255). reflexivity.
    + unfold Scenario.bound. apply reachable_run, reachable_fresh.
    + apply H; vm_compute; reflexivity.
  - destruct (operatorConfirmed_transitions Scenario.c Scenario.confirmed
                (Scenario.as_root, UpdateOperator Scenario.A Scenario.O2)
                Scenario.A) as [_ H].
    + exists (empty_storage 255). reflexivity.
    + unfold Scenario.confirmed, Scenario.bound.
      apply reachable_step, reachable_run, reachable_fresh.
    + apply H; vm_compute; reflexivity.
Defined.

(** * Further properties of the registry *)

(** ** updateAuthorization *)

Lemma _updateAuthorization_noop p a d e st :
  p = 0 \/
  (a = authorized (info_at st p) /\
   d = deauthorizing (info_at st p) /\
   e = endDeauthorization (info_at st p)) ->
  _updateAuthorization p a d e st = (st, []).
Proof.
  intros H. unfold _updateAuthorization.
  destruct H as [-> | (-> & -> & ->)]; [done |].
  rewrite !Z.eqb_refl. simpl. by rewrite orb_true_r.
Qed.

Lemma _updateAuthorization_write p a d e st :
  p <> 0 ->
  ~ (a = authorized (info_at st p) /\
     d = deauthorizing (info_at st p) /\
     e = endDeauthorization (info_at st p)) ->
  _updateAuthorization p a d e st =
  (update_info p (with_endDeauthorization e)
     (update_info p (with_deauthorizing d)
        (update_info p (with_authorized a) st)),
   [AuthorizationUpdated p a d e]).
Proof.
  intros Hp Hdiff. unfold _updateAuthorization.
  apply Z.eqb_neq in Hp. rewrite Hp. simpl.
  destruct (_ && _) eqn:E; [| done].
  apply andb_true_iff in E as [E E3]. apply andb_true_iff in E as [E1 E2].
  apply Z.eqb_eq in E1, E2, E3. tauto.
Qed.

(** X1: called by the root application, [updateAuthorization] changes
    nothing and emits nothing when the provider is the zero address or
    the three values are the stored ones; otherwise it overwrites exactly
    the three authorization fields of that provider, emits
    [AuthorizationUpdated], and leaves the operator, the confirmation, the
    index, every other provider, the reverse mapping, the enumeration and
    the coordinator as they were. *)
Theorem updateAuthorization_effect c w p a d e st :
  msg_sender w = rootApplication c ->
  (p = 0 \/
   (a = authorized (info_at st p) /\
    d = deauthorizing (info_at st p) /\
    e = endDeauthorization (info_at st p)) ->
   updateAuthorization c w p a d e st = Ok (st, [])) /\
  (p <> 0 ->
   ~ (a = authorized (info_at st p) /\
      d = deauthorizing (info_at st p) /\
      e = endDeauthorization (info_at st p)) ->
   exists st',
     updateAuthorization c w p a d e st
       = Ok (st', [AuthorizationUpdated p a d e]) /\
     info_at st' p =
       {| operator := operator (info_at st p);
          authorized := a;
          operatorConfirmed := operatorConfirmed (info_at st p);
          index := index (info_at st p);
          deauthorizing := d;
          endDeauthorization := e |} /\
     (forall q, q <> p -> info_at st' q = info_at st q) /\
     (forall o, provider_of st' o = provider_of st o) /\
     stakingProviders st' = stakingProviders st /\
     coordinator st' = coordinator st).
Proof.
  intros Hs. unfold updateAuthorization, onlyRootApplication.
  rewrite Hs, Z.eqb_refl. simpl. split.
  - intros H. by rewrite _updateAuthorization_noop.
  - intros Hp Hdiff. rewrite _updateAuthorization_write by done.
    eexists. split; [reflexivity |].
    split; [by rewrite !info_at_update_info_eq |].
    split; [| done].
    intros q Hq. by rewrite !info_at_update_info_ne.
Qed.

Lemma updateAuthorization_effect_witness :
  updateAuthorization Scenario.c Scenario.as_root Scenario.A 100 0 0
    Scenario.confirmed = Ok (Scenario.confirmed, []) /\
  exists st',
    updateAuthorization Scenario.c Scenario.as_root Scenario.A 100 60 5
      Scenario.confirmed
      = Ok (st', [AuthorizationUpdated Scenario.A 100 60 5]) /\
    info_at st' Scenario.A =
      {| operator := Scenario.O1; authorized := 100;
         operatorConfirmed := true; index := 1;
         deauthorizing := 60; endDeauthorization := 5 |}.
Proof.
  destruct (updateAuthorization_effect Scenario.c Scenario.as_root Scenario.A
              100 0 0 Scenario.confirmed eq_refl) as [H1 _].
  destruct (updateAuthorization_effect Scenario.c Scenario.as_root Scenario.A
              100 60 5 Scenario.confirmed eq_refl) as [_ H2].
  split.
  - apply H1. right. by vm_compute.
  - destruct H2 as (st' & Hcall & Hinfo & _).
    + by vm_compute.
    + vm_compute. intros (_ & H & _). discriminate.
    + exists st'. split; [exact Hcall |]. rewrite Hinfo. by vm_compute.
Defined.

(** X2: the two-argument [updateAuthorization] of the root application
    drops any pending decrease of a non-zero provider: afterwards
    [authorizedStake] is the new amount, [pendingAuthorizationDecrease]
    is 0, and [eligibleStake] returns the new amount for every end date,
    without reverting. *)
Theorem updateAuthorization2_clears_decrease c w p a st :
  msg_sender w = rootApplication c -> p <> 0 ->
  exists st' evs,
    updateAuthorization2 c w p a st = Ok (st', evs) /\
    authorizedStake st' p = a /\
    pendingAuthorizationDecrease st' p = 0 /\
    forall endDate, eligibleStake st' p endDate = Ok a.
Proof.
  intros Hs Hp. unfold updateAuthorization2, onlyRootApplication.
  rewrite Hs, Z.eqb_refl. simpl.
  destruct (_updateAuthorization p a 0 0 st) as [st' evs] eqn:E.
  exists st', evs. split; [done |].
  pose proof (_updateAuthorization_effective p a 0 0 st Hp) as H.
  rewrite E in H. simpl in H. destruct H as (Ha & Hd & He & _).
  unfold authorizedStake, pendingAuthorizationDecrease.
  split; [done | split; [done |]]. intros endDate.
  rewrite eligibleStake_out_of_window; [by rewrite Ha | lia].
Qed.

Lemma updateAuthorization2_clears_decrease_witness :
  eligibleStake Scenario.overdrawn Scenario.A 2 = Revert arithmetic_panic /\
  exists st' evs,
    updateAuthorization2 Scenario.c Scenario.as_root Scenario.A 7
      Scenario.overdrawn = Ok (st', evs) /\
    authorizedStake st' Scenario.A = 7 /\
    pendingAuthorizationDecrease st' Scenario.A = 0 /\
    forall endDate, eligibleStake st' Scenario.A endDate = Ok 7.
Proof.
  split; [by vm_compute |].
  apply (updateAuthorization2_clears_decrease Scenario.c Scenario.as_root
           Scenario.A 7 Scenario.overdrawn); by vm_compute.
Defined.

(** ** Who can change what *)

Lemma updateAuthorization_not_root c w p a d e st :
  msg_sender w <> rootApplication c ->
  updateAuthorization c w p a d e st =
  Revert (Require_failed "Caller must be the root application").
Proof.
  intros H. unfold updateAuthorization, onlyRootApplication.
  apply Z.eqb_neq in H. by rewrite H.
Qed.

Lemma updateAuthorization2_not_root c w p a st :
  msg_sender w <> rootApplication c ->
  updateAuthorization2 c w p a st =
  Revert (Require_failed "Caller must be the root application").
Proof.
  intros H. unfold updateAuthorization2, onlyRootApplication.
  apply Z.eqb_neq in H. by rewrite H.
Qed.

Lemma initialize_registry c w a st st' evs :
  initialize c w a st = Ok (st', evs) ->
  History.registry st' = History.registry st.
Proof.
  intros H. pose proof (execute_commits c w (Initialize a) st st' evs H) as Hc.
  by inversion Hc.
Qed.

(** X3: a caller that is neither the root application nor the
    coordinator cannot touch the registry.  Its [updateOperator] and
    [updateAuthorization] calls revert with the message of
    [onlyRootApplication], its [confirmOperatorAddress] with the message
    of the coordinator check, and whatever it calls, [initialize]
    included, the provider records, the enumeration and the reverse
    mapping stay as they are. *)
Theorem outsider_cannot_write c w st :
  msg_sender w <> rootApplication c ->
  msg_sender w <> coordinator st ->
  (forall p o, updateOperator c w p o st =
     Revert (Require_failed "Caller must be the root application")) /\
  (forall p a, updateAuthorization2 c w p a st =
     Revert (Require_failed "Caller must be the root application")) /\
  (forall p a d e, updateAuthorization c w p a d e st =
     Revert (Require_failed "Caller must be the root application")) /\
  (forall o, confirmOperatorAddress c w o st =
     Revert (Require_failed "Only Coordinator allowed to confirm operator")) /\
  (forall f, History.registry (transact c (w, f) st) = History.registry st).
Proof.
  intros Hroot Hcoord.
  split; [| split; [| split; [| split]]].
  - intros p o. by apply updateOperator_not_root.
  - intros p a. by apply updateAuthorization2_not_root.
  - intros p a d e. by apply updateAuthorization_not_root.
  - intros o. by apply confirmOperatorAddress_not_coordinator.
  - intros f. unfold transact. simpl.
    destruct f as [a | p o | p a | p a d e | o]; simpl.
    + destruct (initialize c w a st) as [[st' evs] |] eqn:E; [| done].
      by eapply initialize_registry.
    + by rewrite updateOperator_not_root.
    + by rewrite updateAuthorization2_not_root.
    + by rewrite updateAuthorization_not_root.
    + by rewrite confirmOperatorAddress_not_coordinator.
Qed.

Lemma outsider_cannot_write_witness :
  updateOperator Scenario.c Scenario.as_anyone Scenario.A Scenario.O2
    Scenario.confirmed
  = Revert (Require_failed "Caller must be the root application") /\
  confirmOperatorAddress Scenario.c Scenario.as_anyone Scenario.O1
    Scenario.bound
  = Revert (Require_failed "Only Coordinator allowed to confirm operator") /\
  History.registry
    (transact Scenario.c (Scenario.as_anyone, Initialize 2000) Scenario.fresh)
  = History.registry Scenario.fresh.
Proof.
  destruct (outsider_cannot_write Scenario.c Scenario.as_anyone
              Scenario.confirmed) as (H1 & _); [by vm_compute .. |].
  destruct (outsider_cannot_write Scenario.c Scenario.as_anyone
              Scenario.bound) as (_ & _ & _ & H2 & _); [by vm_compute .. |].
  destruct (outsider_cannot_write Scenario.c Scenario.as_anyone
              Scenario.fresh) as (_ & _ & _ & _ & H3); [by vm_compute .. |].
  split; [apply H1 | split; [apply H2 | apply H3]].
Defined.

(** ** Providers without an authorization *)

Lemma never_authorized_run c v p txs :
  deployed c ->
  History.never_authorized p txs ->
  let st := run c txs (empty_storage v) in
  authorized (info_at st p) = 0 /\
  deauthorizing (info_at st p) = 0 /\
  endDeauthorization (info_at st p) = 0 /\
  operatorConfirmed (info_at st p) = false.
Proof.
  intros Hdep.
  destruct (deployed_checks c Hdep) as [_ Hmin].
  induction txs as [| [w f] txs IH] using rev_ind; intros Hnever; [done |].
  unfold History.never_authorized in Hnever.
  rewrite Forall_app, Forall_singleton in Hnever.
  destruct Hnever as [Hnever [Hf2 Hf4]]. simpl in Hf2, Hf4.
  destruct (IH Hnever) as (Ha & Hd & He & Hc). clear IH.
  cbv zeta. rewrite run_snoc.
  remember (run c txs (empty_storage v)) as st eqn:Est. clear Est.
  destruct (call_updateOperator_dec f) as [(q & o & ->) | Hf].
  - destruct (transact_updateOperator c w q o st)
      as [-> | (Hq & Ho & _ & ->)]; [done |].
    destruct (decide (q = p)) as [-> | Hne].
    + by rewrite _updateOperator_info.
    + by rewrite _updateOperator_info_other.
  - destruct (transact_cases c (w, f) st) as [-> | Hcm]; [done |].
    simpl in Hcm.
    destruct Hcm as [a | q o Hs | q a Hs | q a d e Hs | o Hs Hauth Hconf Hroot].
    + done.
    + by destruct (Hf q o).
    + assert (q <> p) by (intros ->; by apply (Hf2 a)).
      by rewrite _updateAuthorization_other.
    + assert (q <> p) by (intros ->; by apply (Hf4 a d e)).
      by rewrite _updateAuthorization_other.
    + assert (provider_of st o <> p) by (intros E; rewrite E in Hauth; lia).
      by rewrite info_at_update_info_ne.
Qed.

(** X4: missing key.  In a deployed registry, a provider for which the
    root application never pushed an authorization has
    [authorizedStake = 0] and [pendingAuthorizationDecrease = 0], an
    eligible stake of 0 for every end date, and is not confirmed,
    whatever else was called. *)
Theorem unauthorized_provider_is_idle c v p txs :
  deployed c ->
  History.never_authorized p txs ->
  let st := run c txs (empty_storage v) in
  authorizedStake st p = 0 /\
  pendingAuthorizationDecrease st p = 0 /\
  (forall endDate, eligibleStake st p endDate = Ok 0) /\
  operatorConfirmed (info_at st p) = false.
Proof.
  intros Hdep Hnever st.
  destruct (never_authorized_run c v p txs Hdep Hnever) as (Ha & Hd & He & Hc).
  fold st in Ha, Hd, He, Hc.
  unfold authorizedStake, pendingAuthorizationDecrease.
  split; [done | split; [done | split; [| done]]].
  intros endDate. rewrite eligibleStake_out_of_window; [by rewrite Ha | lia].
Qed.

Lemma unauthorized_provider_is_idle_witness :
  let st := run Scenario.c
              [ (Scenario.as_anyone, Initialize 2000);
                (Scenario.as_root, UpdateOperator Scenario.B Scenario.O2);
                (Scenario.as_root, UpdateAuthorization2 Scenario.A 100);
                (Scenario.as_coordinator, ConfirmOperatorAddress Scenario.O2) ]
              Scenario.fresh in
  authorizedStake st Scenario.B = 0 /\
  pendingAuthorizationDecrease st Scenario.B = 0 /\
  (forall endDate, eligibleStake st Scenario.B endDate = Ok 0) /\
  operatorConfirmed (info_at st Scenario.B) = false.
Proof.
  apply (unauthorized_provider_is_idle Scenario.c 0 Scenario.B).
  - exists (empty_storage 255). reflexivity.
  - repeat constructor; simpl; intros; discriminate.
Defined.

(** ** The enumeration only grows *)

Lemma stakingProviders_prefix_run c txs : forall st,
  stakingProviders st `prefix_of` stakingProviders (run c txs st).
Proof.
  induction txs as [| tx txs IH]; intros st; [done |].
  rewrite run_cons. etrans; [| apply IH].
  destruct (stakingProviders_step c st tx) as [-> | [p ->]];
    [done | by apply prefix_app_r].
Qed.

(** X5: [stakingProviders] is append-only.  After any sequence of calls
    the old array is a prefix of the new one: every provider keeps its
    position, and [getStakingProvidersLength] never decreases. *)
Theorem stakingProviders_append_only c txs st :
  stakingProviders st `prefix_of` stakingProviders (run c txs st) /\
  (forall (i : nat) p,
     stakingProviders st !! i = Some p ->
     stakingProviders (run c txs st) !! i = Some p) /\
  getStakingProvidersLength st <= getStakingProvidersLength (run c txs st).
Proof.
  pose proof (stakingProviders_prefix_run c txs st) as Hpre.
  split; [done | split].
  - intros i p Hi. by eapply prefix_lookup_Some.
  - unfold getStakingProvidersLength.
    apply prefix_length in Hpre. lia.
Qed.

(** ** The reverse mapping *)

(** X6: on storage reachable from a deployment, a provider is found
    behind at most one operator, the provider found behind an operator
    names that operator, and the zero operator leads to no provider. *)
Theorem one_operator_per_provider c st :
  deployed c -> reachable c st ->
  (forall o1 o2 p,
     p <> 0 -> provider_of st o1 = p -> provider_of st o2 = p -> o1 = o2) /\
  (forall o, provider_of st o <> 0 ->
     operator (info_at st (provider_of st o)) = o) /\
  provider_of st 0 = 0.
Proof.
  intros Hdep Hreach.
  pose proof (bound_back_reachable c st Hreach) as Hback.
  destruct (zero_untouched_reachable c Hdep st Hreach) as [_ Hzero].
  split; [| split; [| done]].
  - intros o1 o2 p Hp H1 H2.
    rewrite <- (Hback o1 p H1 Hp). by apply Hback.
  - intros o Ho. by apply Hback.
Qed.

Lemma one_operator_per_provider_witness :
  (forall o1 o2 p,
     p <> 0 -> provider_of Scenario.two o1 = p ->
     provider_of Scenario.two o2 = p -> o1 = o2) /\
  (forall o, provider_of Scenario.two o <> 0 ->
     operator (info_at Scenario.two (provider_of Scenario.two o)) = o) /\
  provider_of Scenario.two 0 = 0.
Proof.
  apply (one_operator_per_provider Scenario.c Scenario.two).
  - exists (empty_storage 255). reflexivity.
  - unfold Scenario.two, Scenario.confirmed, Scenario.bound.
    apply reachable_run, reachable_step, reachable_run, reachable_fresh.
Defined.

(** ** The packed records *)

Lemma testbit_above a n :
  0 <= a < 2 ^ 96 -> 96 <= n -> Z.testbit a n = false.
Proof.
  intros Ha Hn. destruct (decide (a = 0)) as [-> | Hne]; [apply Z.bits_0 |].
  apply Z.bits_above_log2; [lia |].
  assert (Z.log2 a < 96) by (apply Z.log2_lt_pow2; lia). lia.
Qed.

Lemma pack_sum p a :
  0 <= p -> 0 <= a < 2 ^ 96 -> pack p a = p * 2 ^ 96 + a.
Proof.
  intros Hp Ha. unfold pack. rewrite Z.shiftl_mul_pow2 by lia.
  assert (Hland : Z.land (p * 2 ^ 96) a = 0).
  { apply Z.bits_inj'. intros n Hn. rewrite Z.land_spec, Z.bits_0.
    destruct (Z.lt_ge_cases n 96) as [Hlt | Hge].
    - by rewrite Z.mul_pow2_bits_low.
    - rewrite (testbit_above a n) by done. apply andb_false_r. }
  by rewrite <- Z.lxor_lor, <- Z.add_nocarry_lxor.
Qed.

(** X7: the layout of a record of [getActiveStakingProviders].  For a
    160-bit address and a 96-bit amount the record is a 256-bit word with
    the address in the high 20 bytes and the amount in the low 12: both
    can be read back, so different pairs give different records. *)
Theorem pack_layout p a :
  0 <= p < 2 ^ 160 -> 0 <= a < 2 ^ 96 ->
  0 <= pack p a < 2 ^ 256 /\
  Z.shiftr (pack p a) 96 = p /\
  Z.land (pack p a) (Z.ones 96) = a /\
  (forall p' a',
     0 <= p' < 2 ^ 160 -> 0 <= a' < 2 ^ 96 ->
     pack p' a' = pack p a -> p' = p /\ a' = a).
Proof.
  intros Hp Ha.
  assert (Hread : forall q b, 0 <= q -> 0 <= b < 2 ^ 96 ->
            Z.shiftr (pack q b) 96 = q /\ Z.land (pack q b) (Z.ones 96) = b).
  { intros q b Hq Hb. pose proof (unpack_pack q b Hq Hb) as H.
    unfold View.unpack in H. by injection H. }
  destruct (Hread p a) as [H1 H2]; [lia | done |].
  split; [| split; [done | split; [done |]]].
  - rewrite pack_sum by lia.
    change (2 ^ 256) with (2 ^ 160 * 2 ^ 96). nia.
  - intros p' a' Hp' Ha' E.
    destruct (Hread p' a') as [H1' H2']; [lia | done |].
    rewrite E in H1', H2'. split; congruence.
Qed.

Lemma pack_layout_witness :
  0 <= pack Scenario.A 100 < 2 ^ 256 /\
  Z.shiftr (pack Scenario.A 100) 96 = Scenario.A /\
  Z.land (pack Scenario.A 100) (Z.ones 96) = 100 /\
  (forall p' a',
     0 <= p' < 2 ^ 160 -> 0 <= a' < 2 ^ 96 ->
     pack p' a' = pack Scenario.A 100 -> p' = Scenario.A /\ a' = 100).
Proof. apply (pack_layout Scenario.A 100); by vm_compute. Defined.

(** ** Pages of getActiveStakingProviders *)

Lemma survivors_app c st endDate l1 l2 :
  View.survivors c st endDate (l1 ++ l2) =
  View.survivors c st endDate l1 ++ View.survivors c st endDate l2.
Proof. apply List.filter_app. Qed.

Lemma total_app l1 l2 : View.total (l1 ++ l2) = View.total l1 + View.total l2.
Proof.
  unfold View.total. induction l1 as [| x l1 IH]; simpl; [done | lia].
Qed.

Lemma kept_total_app c st endDate l1 l2 :
  View.kept_total c st endDate (l1 ++ l2) =
  View.kept_total c st endDate l1 + View.kept_total c st endDate l2.
Proof.
  unfold View.kept_total. by rewrite survivors_app, map_app, total_app.
Qed.

Lemma slice_first st k :
  0 < k < Z.of_nat (length (stakingProviders st)) ->
  View.slice st 0 (View.end_index st 0 k)
  = take (Z.to_nat k) (stakingProviders st).
Proof.
  intros Hk. unfold View.slice, View.end_index.
  destruct (k =? 0) eqn:E0; [apply Z.eqb_eq in E0; lia |].
  destruct (0 + k <? _) eqn:E1; [| apply Z.ltb_ge in E1; lia].
  simpl. by rewrite Z.sub_0_r.
Qed.

Lemma slice_rest st k :
  0 <= k <= Z.of_nat (length (stakingProviders st)) ->
  View.slice st k (View.end_index st k 0)
  = drop (Z.to_nat k) (stakingProviders st).
Proof.
  intros Hk. unfold View.slice, View.end_index. simpl.
  apply take_ge. rewrite length_drop. lia.
Qed.

(** X8: pages compose.  When the unpaged call returns, cutting the
    enumeration at any index [k] gives two pages whose records, in order,
    are the records of the unpaged call and whose totals add up to its
    total. *)
Theorem getActiveStakingProviders_pages c w st k cohort :
  0 <= minimumAuthorization c ->
  0 < k < Z.of_nat (length (stakingProviders st)) ->
  k <= uint_max 256 ->
  (cohort <> 0 -> block_timestamp w + cohort <= uint_max 256) ->
  Forall (View.no_underflow st (View.end_date w cohort)) (stakingProviders st) ->
  View.kept_total c st (View.end_date w cohort) (stakingProviders st)
    <= uint_max 96 ->
  exists t1 r1 t2 r2,
    getActiveStakingProviders c w st 0 k cohort = Ok (t1, r1) /\
    getActiveStakingProviders c w st k 0 cohort = Ok (t2, r2) /\
    getActiveStakingProviders c w st 0 0 cohort = Ok (t1 + t2, r1 ++ r2).
Proof.
  intros Hmin Hk Hk256 Hnow Hsafe Hsum.
  set (endDate := View.end_date w cohort) in *.
  set (l := stakingProviders st) in *.
  assert (Hl : l = take (Z.to_nat k) l ++ drop (Z.to_nat k) l)
    by (by rewrite take_drop).
  pose proof (kept_total_nonneg c st endDate Hmin (take (Z.to_nat k) l)) as Hn1.
  pose proof (kept_total_nonneg c st endDate Hmin (drop (Z.to_nat k) l)) as Hn2.
  assert (Hsplit : View.kept_total c st endDate l =
                   View.kept_total c st endDate (take (Z.to_nat k) l) +
                   View.kept_total c st endDate (drop (Z.to_nat k) l))
    by (by rewrite <- kept_total_app, <- Hl).
  rewrite Hl in Hsafe. apply Forall_app in Hsafe as [Hsafe1 Hsafe2].
  exists (View.kept_total c st endDate (take (Z.to_nat k) l)),
         (map (View.record_of st endDate)
            (View.survivors c st endDate (take (Z.to_nat k) l))),
         (View.kept_total c st endDate (drop (Z.to_nat k) l)),
         (map (View.record_of st endDate)
            (View.survivors c st endDate (drop (Z.to_nat k) l))).
  split; [| split].
  - pose proof (getActiveStakingProviders_returns c w st 0 k cohort) as H.
    cbv zeta in H. rewrite slice_first in H by done.
    apply H; fold endDate; fold l; try done; lia.
  - pose proof (getActiveStakingProviders_returns c w st k 0 cohort) as H.
    cbv zeta in H. rewrite slice_rest in H by (fold l; lia).
    apply H; fold endDate; fold l; try done; lia.
  - pose proof (getActiveStakingProviders_returns c w st 0 0 cohort) as H.
    cbv zeta in H. rewrite (slice_rest st 0) in H by (fold l; lia).
    change (drop (Z.to_nat 0) (stakingProviders st)) with l in H.
    rewrite <- Hsplit, <- map_app, <- survivors_app, <- Hl.
    apply H; fold endDate; fold l; try done; try lia.
    by rewrite Hl, Forall_app.
Qed.

Lemma getActiveStakingProviders_pages_witness :
  exists t1 r1 t2 r2,
    getActiveStakingProviders Scenario.c Scenario.as_anyone Scenario.two
      0 1 1000 = Ok (t1, r1) /\
    getActiveStakingProviders Scenario.c Scenario.as_anyone Scenario.two
      1 0 1000 = Ok (t2, r2) /\
    getActiveStakingProviders Scenario.c Scenario.as_anyone Scenario.two
      0 0 1000 = Ok (t1 + t2, r1 ++ r2).
Proof.
  apply (getActiveStakingProviders_pages Scenario.c Scenario.as_anyone
           Scenario.two 1 1000);
    [ by vm_compute | by vm_compute | by vm_compute | by vm_compute
    | forall_by_computation | by vm_compute ].
Defined.

(** ** One bad record fails the page *)

Lemma eligibleStake_underflows st p endDate :
  History.underflows st endDate p ->
  eligibleStake st p endDate = Revert arithmetic_panic.
Proof.
  intros [Hw Hlt]. rewrite eligibleStake_in_window by done.
  by apply checked_sub_underflow.
Qed.

Lemma eligibleStake_ok_or_panic st p endDate :
  (exists v, eligibleStake st p endDate = Ok v) \/
  eligibleStake st p endDate = Revert arithmetic_panic.
Proof.
  unfold eligibleStake, checked_sub.
  destruct (_ && _); [| eauto]. destruct (_ <=? _); eauto.
Qed.

Lemma scan_panics c st endDate n : forall i s,
  0 <= i ->
  (Z.to_nat i + n <= length (stakingProviders st))%nat ->
  Exists (History.underflows st endDate)
    (take n (drop (Z.to_nat i) (stakingProviders st))) ->
  scan c st endDate n i s = Revert arithmetic_panic.
Proof.
  induction n as [| n IH]; intros i s Hi Hlen Hbad.
  - rewrite take_0 in Hbad. by apply Exists_nil in Hbad.
  - assert (Hlt : (Z.to_nat i < length (stakingProviders st))%nat) by lia.
    destruct (lookup_lt_is_Some_2 _ _ Hlt) as [p Hp].
    rewrite (drop_S _ _ _ Hp), firstn_cons in Hbad.
    replace (S (Z.to_nat i)) with (Z.to_nat (i + 1)) in Hbad by lia.
    cbn [scan]. rewrite (array_get_lookup _ _ _ Hi Hp). cbn [bind].
    apply Exists_cons in Hbad as [Hbad | Hbad].
    + by rewrite eligibleStake_underflows.
    + assert (Hnext : forall s', scan c st endDate n (i + 1) s'
                                 = Revert arithmetic_panic)
        by (intros s'; apply IH; [lia | lia | done]).
      destruct (eligibleStake_ok_or_panic st p endDate) as [[v ->] | ->];
        [| done].
      cbn [bind]. destruct (_ || _); [apply Hnext |].
      unfold checked_add. destruct (_ <=? _); [apply Hnext | done].
Qed.

(** X9: one provider in the scanned range whose pending decrease inside
    the horizon exceeds its authorized amount makes
    [getActiveStakingProviders] revert with [Panic(0x11)], whether or not
    that provider is confirmed: [eligibleStake] is evaluated before the
    loop looks at [operatorConfirmed]. *)
Theorem getActiveStakingProviders_poisoned c w st start maxp cohort p :
  0 <= start -> 0 <= maxp ->
  start < Z.of_nat (length (stakingProviders st)) ->
  start + maxp <= uint_max 256 ->
  (cohort <> 0 -> block_timestamp w + cohort <= uint_max 256) ->
  p ∈ View.slice st start (View.end_index st start maxp) ->
  History.underflows st (View.end_date w cohort) p ->
  getActiveStakingProviders c w st start maxp cohort = Revert arithmetic_panic.
Proof.
  intros Hs Hm Hlt Hadd Hnow Hin Hbad.
  unfold getActiveStakingProviders.
  rewrite (proj2 (Z.ltb_lt _ _) Hlt). cbn [require bind].
  set (len := Z.of_nat (length (stakingProviders st))) in *.
  assert (Hrange : start <= View.end_index st start maxp <= len).
  { unfold View.end_index. fold len.
    destruct (negb (maxp =? 0) && (start + maxp <? len)) eqn:E; [| lia].
    apply andb_true_iff in E as [_ E]. apply Z.ltb_lt in E. lia. }
  unfold View.slice in Hin. revert Hin Hrange.
  unfold View.end_index. fold len. intros Hin Hrange.
  destruct (maxp =? 0) eqn:E0; cbn [negb andb bind] in *.
  - rewrite checked_sub_ok by lia. cbn [bind].
    replace (if cohort =? 0 then Ok (uint_max 256)
             else checked_add 256 (block_timestamp w) cohort)
      with (Ok (A:=Z) (View.end_date w cohort)).
    2: { unfold View.end_date. destruct (cohort =? 0) eqn:Ec; [done |].
         apply Z.eqb_neq in Ec. by rewrite checked_add_ok by auto. }
    cbn [bind]. rewrite scan_panics; [reflexivity | done | unfold len; lia |].
    apply Exists_exists. by exists p.
  - rewrite checked_add_ok by done. cbn [bind].
    destruct (start + maxp <? len) eqn:E1.
    + cbn [bind]. rewrite checked_sub_ok by lia. cbn [bind].
      replace (if cohort =? 0 then Ok (uint_max 256)
               else checked_add 256 (block_timestamp w) cohort)
        with (Ok (A:=Z) (View.end_date w cohort)).
      2: { unfold View.end_date. destruct (cohort =? 0) eqn:Ec; [done |].
           apply Z.eqb_neq in Ec. by rewrite checked_add_ok by auto. }
      cbn [bind]. rewrite scan_panics; [reflexivity | done | unfold len; lia |].
      apply Exists_exists. by exists p.
    + cbn [bind]. rewrite checked_sub_ok by lia. cbn [bind].
      replace (if cohort =? 0 then Ok (uint_max 256)
               else checked_add 256 (block_timestamp w) cohort)
        with (Ok (A:=Z) (View.end_date w cohort)).
      2: { unfold View.end_date. destruct (cohort =? 0) eqn:Ec; [done |].
           apply Z.eqb_neq in Ec. by rewrite checked_add_ok by auto. }
      cbn [bind]. rewrite scan_panics; [reflexivity | done | unfold len; lia |].
      apply Exists_exists. by exists p.
Qed.

Lemma getActiveStakingProviders_poisoned_witness :
  operatorConfirmed (info_at History.poisoned Scenario.B) = false /\
  getActiveStakingProviders Scenario.c Scenario.as_anyone History.poisoned
    0 0 0 = Revert arithmetic_panic.
Proof.
  split; [by vm_compute |].
  apply (getActiveStakingProviders_poisoned Scenario.c Scenario.as_anyone
           History.poisoned 0 0 0 Scenario.B); try by vm_compute.
  match goal with
  | |- _ ∈ ?l => let l' := eval vm_compute in l in change (Scenario.B ∈ l')
  end.
  apply list_elem_of_In. right. by left.
Defined.

(** ** A confirmation that goes through *)

Lemma confirmOperatorAddress_outcome c w o st :
  msg_sender w = coordinator st ->
  minimumAuthorization c <= authorized (info_at st (provider_of st o)) ->
  operatorConfirmed (info_at st (provider_of st o)) = false ->
  (root_confirms w o = false ->
   confirmOperatorAddress c w o st = Revert Call_failed) /\
  (root_confirms w o = true ->
   exists st',
     confirmOperatorAddress c w o st
       = Ok (st', [OperatorConfirmed (provider_of st o) o]) /\
     info_at st' (provider_of st o)
       = with_operatorConfirmed true (info_at st (provider_of st o)) /\
     (forall q, q <> provider_of st o -> info_at st' q = info_at st q) /\
     (forall x, provider_of st' x = provider_of st x) /\
     stakingProviders st' = stakingProviders st /\
     coordinator st' = coordinator st).
Proof.
  intros Hs Hauth Hconf. unfold confirmOperatorAddress.
  rewrite Hs, Z.eqb_refl. apply Z.leb_le in Hauth. rewrite Hauth, Hconf.
  cbn [require negb bind]. split; intros Hroot; rewrite Hroot; [done |].
  cbn [bind]. eexists. split; [reflexivity |].
  split; [apply info_at_update_info_eq |].
  split; [| done]. intros q Hq. by rewrite info_at_update_info_ne.
Qed.

(** X10: when the coordinator confirms an operator whose provider has at
    least [minimumAuthorization] authorized and is not yet confirmed, the
    outcome is that of the root application's own
    [confirmOperatorAddress]: if that call goes through, the provider's
    flag becomes true, [OperatorConfirmed] is emitted and nothing else in
    storage changes; if it reverts, the confirmation reverts as a whole. *)
Theorem confirmOperatorAddress_commits c w o st :
  msg_sender w = coordinator st ->
  minimumAuthorization c <= authorized (info_at st (provider_of st o)) ->
  operatorConfirmed (info_at st (provider_of st o)) = false ->
  (root_confirms w o = false ->
   confirmOperatorAddress c w o st = Revert Call_failed) /\
  (root_confirms w o = true ->
   exists st',
     confirmOperatorAddress c w o st
       = Ok (st', [OperatorConfirmed (provider_of st o) o]) /\
     info_at st' (provider_of st o)
       = with_operatorConfirmed true (info_at st (provider_of st o)) /\
     (forall q, q <> provider_of st o -> info_at st' q = info_at st q) /\
     (forall x, provider_of st' x = provider_of st x) /\
     stakingProviders st' = stakingProviders st /\
     coordinator st' = coordinator st).
Proof. apply confirmOperatorAddress_outcome. Qed.

Lemma confirmOperatorAddress_commits_witness :
  exists st',
    confirmOperatorAddress Scenario.c Scenario.as_coordinator Scenario.O1
      Scenario.bound
      = Ok (st', [OperatorConfirmed Scenario.A Scenario.O1]) /\
    operatorConfirmed (info_at st' Scenario.A) = true.
Proof.
  destruct (confirmOperatorAddress_commits Scenario.c Scenario.as_coordinator
              Scenario.O1 Scenario.bound) as [_ H]; [by vm_compute .. |].
  destruct H as (st' & Hcall & Hinfo & _); [reflexivity |].
  exists st'. split; [exact Hcall |].
  change (provider_of Scenario.bound Scenario.O1) with Scenario.A in Hinfo.
  by rewrite Hinfo.
Defined.

(** ** An operator named by two providers *)

(** X11: [_updateOperator] clears the reverse entry of the old operator
    without looking at who it points to.  When two providers name the
    same operator and the root application rebinds one of them, the
    other still names that operator, but the operator now leads to no
    provider, and in a deployed registry no one can confirm it. *)
Theorem shared_operator_is_orphaned c w st pa pb o o' :
  deployed c -> reachable c st ->
  msg_sender w = rootApplication c ->
  pa <> 0 -> pa <> pb ->
  operator (info_at st pa) = o -> operator (info_at st pb) = o ->
  o' <> o ->
  let st' := transact c (w, UpdateOperator pa o') st in
  operator (info_at st' pb) = o /\
  provider_of st' o = 0 /\
  forall w2, exists e, confirmOperatorAddress c w2 o st' = Revert e.
Proof.
  intros Hdep Hreach Hs Hpa Hne Hoa Hob Ho' st'.
  assert (Hreach' : reachable c st') by (by constructor).
  assert (Est : st' = fst (_updateOperator pa o' st)).
  { unfold st', transact. simpl. rewrite updateOperator_as_root by done.
    by destruct (_updateOperator pa o' st). }
  assert (Ho : o' <> operator (info_at st pa)) by congruence.
  assert (Hgone : provider_of st' o = 0).
  { rewrite Est, _updateOperator_provider_of by done.
    destruct (decide (o' <> 0 /\ o = o')) as [[_ E] | _]; [congruence |].
    destruct (decide (o = operator (info_at st pa))); congruence. }
  split; [| split; [done |]].
  - rewrite Est, _updateOperator_info_other; done.
  - intros w2. apply confirmOperatorAddress_reverts. left.
    destruct (zero_untouched_reachable c Hdep st' Hreach') as [Hzero _].
    destruct (deployed_checks c Hdep) as [_ Hmin].
    rewrite Hgone, Hzero. simpl. lia.
Qed.

Lemma shared_operator_is_orphaned_witness :
  provider_of History.shared Scenario.O1 = Scenario.B /\
  is_ok (confirmOperatorAddress Scenario.c Scenario.as_coordinator
           Scenario.O1 History.shared) = true /\
  let st' := transact Scenario.c
               (Scenario.as_root, UpdateOperator Scenario.A Scenario.O2)
               History.shared in
  operator (info_at st' Scenario.B) = Scenario.O1 /\
  provider_of st' Scenario.O1 = 0 /\
  forall w2, exists e,
    confirmOperatorAddress Scenario.c w2 Scenario.O1 st' = Revert e.
Proof.
  split; [by vm_compute | split; [by vm_compute |]].
  apply (shared_operator_is_orphaned Scenario.c Scenario.as_root
           History.shared Scenario.A Scenario.B Scenario.O1 Scenario.O2);
    try by vm_compute.
  - exists (empty_storage 255). reflexivity.
  - unfold History.shared, Scenario.bound.
    apply reachable_run, reachable_run, reachable_fresh.
Defined.

(** ** When initialize goes through *)

Lemma initialize_ok_iff c w a st :
  (exists st' evs, initialize c w a st = Ok (st', evs)) <->
  (_initialized st < 1 /\ coordinator st = 0 /\ a <> 0 /\
   coordinator_application w a = Some (this c)).
Proof.
  split.
  - intros (st' & evs & H).
    pose proof (execute_commits c w (Initialize a) st st' evs H) as Hc.
    by inversion Hc.
  - intros (Hv & Hco & Ha & Happ). unfold initialize.
    apply Z.ltb_lt in Hv. apply Z.eqb_neq in Ha.
    rewrite Hv. cbn [require bind set_initialized coordinator].
    rewrite Hco, Ha, Happ, Z.eqb_refl. cbn [require negb bind].
    rewrite Z.eqb_refl. cbn [require bind]. by eexists _, _.
Qed.

Lemma initialize_effect c w a st st' evs :
  initialize c w a st = Ok (st', evs) ->
  evs = [Initialized 1] /\ coordinator st' = a /\ _initialized st' = 1 /\
  History.registry st' = History.registry st.
Proof.
  intros H. pose proof (initialize_registry c w a st st' evs H) as Hreg.
  unfold initialize in H. inv_ok H. by subst.
Qed.

(** X12: [initialize] succeeds exactly when the initializer has not run,
    no coordinator is set, the argument is not the zero address and the
    coordinator at that address names this registry as its application.
    It then stores the coordinator, emits [Initialized(1)] and leaves the
    registry's tables alone. *)
Theorem initialize_succeeds_iff c w a st :
  ((exists st' evs, initialize c w a st = Ok (st', evs)) <->
   (_initialized st < 1 /\ coordinator st = 0 /\ a <> 0 /\
    coordinator_application w a = Some (this c))) /\
  (forall st' evs,
     initialize c w a st = Ok (st', evs) ->
     evs = [Initialized 1] /\ coordinator st' = a /\ _initialized st' = 1 /\
     History.registry st' = History.registry st).
Proof. split; [apply initialize_ok_iff | apply initialize_effect]. Qed.

Lemma initialize_succeeds_iff_witness :
  exists st' evs,
    initialize Scenario.c Scenario.as_anyone 2000 Scenario.fresh
      = Ok (st', evs) /\
    evs = [Initialized 1] /\ coordinator st' = 2000 /\ _initialized st' = 1 /\
    History.registry st' = History.registry Scenario.fresh.
Proof.
  destruct (initialize_succeeds_iff Scenario.c Scenario.as_anyone 2000
              Scenario.fresh) as [[_ Hiff] Heff].
  destruct Hiff as (st' & evs & H); [by vm_compute |].
  exists st', evs. split; [exact H |]. by apply Heff.
Defined.

(** * The testnet variant *)

Lemma grant_all_members sender accounts : forall members x,
  x ∈ fst (Testnet.grant_all sender accounts members) <->
  x ∈ members \/ x ∈ accounts.
Proof.
  induction accounts as [| a rest IH]; intros members x; simpl.
  - rewrite elem_of_nil. tauto.
  - unfold Testnet._grantRole.
    destruct (bool_decide (a ∈ members)) eqn:E.
    + apply bool_decide_eq_true in E.
      destruct (Testnet.grant_all sender rest members) as [m evs] eqn:Eg.
      simpl. specialize (IH members x). rewrite Eg in IH. simpl in IH.
      rewrite IH, elem_of_cons.
      split; [tauto |]. intros [? | [-> | ?]]; tauto.
    + destruct (Testnet.grant_all sender rest ({[a]} ∪ members))
        as [m evs] eqn:Eg.
      simpl. specialize (IH ({[a]} ∪ members) x). rewrite Eg in IH.
      simpl in IH. rewrite IH, elem_of_cons, elem_of_union, elem_of_singleton.
      tauto.
Qed.

Lemma onlyRole_member missing_role w st :
  msg_sender w ∈ Testnet.updaters st ->
  Testnet.onlyRole missing_role w st = Ok tt.
Proof.
  intros H. unfold Testnet.onlyRole. by rewrite bool_decide_eq_true_2.
Qed.

Lemma onlyRole_stranger missing_role w st :
  msg_sender w ∉ Testnet.updaters st ->
  Testnet.onlyRole missing_role w st = Revert (missing_role (msg_sender w)).
Proof.
  intros H. unfold Testnet.onlyRole. by rewrite bool_decide_eq_false_2.
Qed.

(** X13: the forced updates of the testnet variant are the root
    application's updates behind another guard.  For a member of
    [UPDATE_ROLE], [forceUpdateOperator] and [forceUpdateAuthorization]
    leave the registry and emit the events that [updateOperator] and
    [updateAuthorization] give when the root application calls them, and
    keep the role members; for anyone else they revert with the error of
    [onlyRole]. *)
Theorem force_updates_follow_root missing_role c w w_root st :
  msg_sender w_root = rootApplication c ->
  (msg_sender w ∈ Testnet.updaters st ->
   (forall p o, exists reg evs,
      updateOperator c w_root p o (Testnet.registry st) = Ok (reg, evs) /\
      Testnet.forceUpdateOperator missing_role w p o st =
      Ok ({| Testnet.registry := reg;
             Testnet.updaters := Testnet.updaters st |},
          map Testnet.Registry evs)) /\
   (forall p a d e, exists reg evs,
      updateAuthorization c w_root p a d e (Testnet.registry st)
        = Ok (reg, evs) /\
      Testnet.forceUpdateAuthorization missing_role w p a d e st =
      Ok ({| Testnet.registry := reg;
             Testnet.updaters := Testnet.updaters st |},
          map Testnet.Registry evs))) /\
  (msg_sender w ∉ Testnet.updaters st ->
   (forall p o, Testnet.forceUpdateOperator missing_role w p o st
                = Revert (missing_role (msg_sender w))) /\
   (forall p a d e, Testnet.forceUpdateAuthorization missing_role w p a d e st
                    = Revert (missing_role (msg_sender w)))).
Proof.
  intros Hroot. split.
  - intros Hin. split.
    + intros p o.
      exists (fst (_updateOperator p o (Testnet.registry st))),
             (snd (_updateOperator p o (Testnet.registry st))).
      rewrite updateOperator_as_root by done.
      unfold Testnet.forceUpdateOperator. rewrite onlyRole_member by done.
      split; [by destruct (_updateOperator _ _ _) | done].
    + intros p a d e.
      exists (fst (_updateAuthorization p a d e (Testnet.registry st))),
             (snd (_updateAuthorization p a d e (Testnet.registry st))).
      unfold updateAuthorization, onlyRootApplication.
      rewrite Hroot, Z.eqb_refl.
      unfold Testnet.forceUpdateAuthorization.
      rewrite onlyRole_member by done.
      split; [by destruct (_updateAuthorization _ _ _ _ _) | done].
  - intros Hout. split.
    + intros p o. unfold Testnet.forceUpdateOperator.
      by rewrite onlyRole_stranger.
    + intros p a d e. unfold Testnet.forceUpdateAuthorization.
      by rewrite onlyRole_stranger.
Qed.

Lemma force_updates_follow_root_witness :
  let st := {| Testnet.registry := Scenario.confirmed;
               Testnet.updaters := {[ 77 ]} |} in
  (exists reg evs,
     updateOperator Scenario.c Scenario.as_root Scenario.A Scenario.O2
       Scenario.confirmed = Ok (reg, evs) /\
     Testnet.forceUpdateOperator (fun _ => Call_failed) Scenario.as_anyone
       Scenario.A Scenario.O2 st =
     Ok ({| Testnet.registry := reg; Testnet.updaters := {[ 77 ]} |},
         map Testnet.Registry evs)) /\
  Testnet.forceUpdateOperator (fun _ => Call_failed) Scenario.as_coordinator
    Scenario.A Scenario.O2 st = Revert Call_failed.
Proof.
  intros st.
  destruct (force_updates_follow_root (fun _ => Call_failed) Scenario.c
              Scenario.as_anyone Scenario.as_root st eq_refl) as [H _].
  destruct (force_updates_follow_root (fun _ => Call_failed) Scenario.c
              Scenario.as_coordinator Scenario.as_root st eq_refl) as [_ H'].
  split.
  - apply H. by vm_compute.
  - apply H'. by vm_compute.
Defined.

(** X14: the testnet [initialize] has the initializer modifier as its
    only guard.  While the initializer has not run it accepts any
    coordinator, the zero address included, without asking the
    coordinator for its application; it makes every listed account a
    member of [UPDATE_ROLE], leaves the registry's tables alone, and
    after it both initializers revert.  Once the initializer has run it
    reverts. *)
Theorem testnet_initialize_unchecked w a accounts st :
  (_initialized (Testnet.registry st) < 1 ->
   exists st' evs,
     Testnet.initialize w a accounts st = Ok (st', evs) /\
     coordinator (Testnet.registry st') = a /\
     (forall x, x ∈ Testnet.updaters st' <->
                x ∈ Testnet.updaters st \/ x ∈ accounts) /\
     History.registry (Testnet.registry st')
       = History.registry (Testnet.registry st) /\
     (forall c w' a' accounts',
        (exists e, Testnet.initialize w' a' accounts' st' = Revert e) /\
        (exists e, Testnet.initialize1 c w' a' st' = Revert e))) /\
  (1 <= _initialized (Testnet.registry st) ->
   Testnet.initialize w a accounts st =
   Revert (Require_failed "Initializable: contract is already initialized")).
Proof.
  split.
  - intros Hv. unfold Testnet.initialize.
    apply Z.ltb_lt in Hv. rewrite Hv. cbn [require bind].
    pose proof (grant_all_members (msg_sender w) accounts
                  (Testnet.updaters st)) as Hm.
    destruct (Testnet.grant_all (msg_sender w) accounts (Testnet.updaters st))
      as [members evs]. simpl in Hm.
    eexists _, _. split; [reflexivity |]. simpl.
    split; [done | split; [done | split; [done |]]].
    intros c w' a' accounts'. split.
    + unfold Testnet.initialize. simpl. eauto.
    + unfold Testnet.initialize1, initialize. simpl. eauto.
  - intros Hv. unfold Testnet.initialize.
    apply Z.ltb_ge in Hv. by rewrite Hv.
Qed.

Lemma testnet_initialize_unchecked_witness :
  exists st' evs,
    Testnet.initialize Scenario.as_anyone 0 [77; 78; 77] Testnet.fresh
      = Ok (st', evs) /\
    coordinator (Testnet.registry st') = 0 /\
    (forall x, x ∈ Testnet.updaters st' <->
               x ∈ Testnet.updaters Testnet.fresh \/ x ∈ [77; 78; 77]) /\
    History.registry (Testnet.registry st')
      = History.registry (Testnet.registry Testnet.fresh) /\
    (forall c w' a' accounts',
       (exists e, Testnet.initialize w' a' accounts' st' = Revert e) /\
       (exists e, Testnet.initialize1 c w' a' st' = Revert e)).
Proof.
  apply (testnet_initialize_unchecked Scenario.as_anyone 0 [77; 78; 77]
           Testnet.fresh).
  by vm_compute.
Defined.

Example testnet_initialize_events :
  snd <$> (match Testnet.initialize Scenario.as_anyone 0 [77; 78; 77]
                   Testnet.fresh with
           | Ok r => Some r | Revert _ => None end)
  = Some [Testnet.RoleGranted 77 77; Testnet.RoleGranted 78 77;
          Testnet.Registry (Initialized 1)].
Proof. by vm_compute. Qed.

(** * The Coinbase wallet connector *)

Section Connector.

Context {value number : Type}.
Variable parseInt : value -> number.
Variable b : Coinbase.Browser value.

Abbreviation effect := (Coinbase.effect value number).

Lemma flagged_isWalletLink p :
  Coinbase.flagged p = true <-> Coinbase.isWalletLink p = Some true.
Proof.
  unfold Coinbase.flagged. destruct (Coinbase.isWalletLink p) as [[|] |];
    simpl; split; congruence.
Qed.

Lemma getCoinbaseProvider_found p (effs : list effect) :
  Coinbase.getCoinbaseProvider b = (Some p, effs) ->
  Coinbase.flagged p = true /\ effs = [] /\
  exists providers,
    Coinbase.ethereum b = Some providers /\
    (List.find Coinbase.flagged (default [] providers) = Some p \/
     (List.find Coinbase.flagged (default [] providers) = None /\
      Coinbase.detected b = Some p)).
Proof.
  unfold Coinbase.getCoinbaseProvider.
  destruct (Coinbase.ethereum b) as [providers |]; [| discriminate].
  destruct (List.find Coinbase.flagged (default [] providers)) as [q |] eqn:E.
  - destruct (Coinbase.flagged q) eqn:Eq; simpl; [| discriminate].
    intros [= <- <-]. eauto 6.
  - destruct (Coinbase.detected b) as [q |]; [| discriminate].
    destruct (Coinbase.flagged q) eqn:Eq; simpl; [| discriminate].
    intros [= <- <-]. eauto 8.
Qed.


Lemma init_no_emit self (e : effect) :
  e ∈ snd (Coinbase.init b self) -> Coinbase.is_emit e = false.
Proof.
  unfold Coinbase.init, Coinbase.getCoinbaseProvider.
  destruct self as [p |]; simpl; [by intros H%elem_of_nil |].
  destruct (Coinbase.ethereum b) as [providers |]; simpl;
    [| by intros ->%list_elem_of_singleton].
  destruct (match List.find Coinbase.flagged (default [] providers) with
            | Some p => Some p
            | None => Coinbase.detected b
            end) as [p |]; simpl;
    [| by intros ->%list_elem_of_singleton].
  destruct (negb (Coinbase.flagged p)); simpl;
    [by intros ->%list_elem_of_singleton | by intros H%elem_of_nil].
Qed.

Lemma announce_emits p method (effs : list effect) :
  Coinbase.announce parseInt b p method = inl effs ->
  exists v accounts,
    Coinbase.send b p "eth_chainId" = inl v /\
    Coinbase.send b p method = inl accounts /\
    effs = [Coinbase.Emit (parseInt v) accounts].
Proof.
  unfold Coinbase.announce.
  destruct (Coinbase.send b p "eth_chainId") as [v | e]; [| discriminate].
  destruct (Coinbase.send b p method) as [accounts | e]; [| discriminate].
  intros [= <-]. eauto.
Qed.

Lemma announce_fails p method e :
  Coinbase.announce (number := number) parseInt b p method = inr e ->
  Coinbase.send b p "eth_chainId" = inr e \/
  Coinbase.send b p method = inr e.
Proof.
  unfold Coinbase.announce.
  destruct (Coinbase.send b p "eth_chainId") as [v | e'];
    [| intros [= <-]; by left].
  destruct (Coinbase.send b p method) as [accounts | e']; [discriminate |].
  intros [= <-]. by right.
Qed.



End Connector.




Lemma stakingProviders_append_only_witness :
  stakingProviders Scenario.confirmed `prefix_of` stakingProviders Scenario.two /\
  stakingProviders Scenario.two !! 0%nat = Some Scenario.A /\
  getStakingProvidersLength Scenario.confirmed
    <= getStakingProvidersLength Scenario.two.
Proof.
  destruct (stakingProviders_append_only Scenario.c
              [ (Scenario.as_root, UpdateOperator Scenario.B Scenario.O2);
                (Scenario.as_root,
                 UpdateAuthorization Scenario.B 70 20 1700000500);
                (Scenario.as_coordinator,
                 ConfirmOperatorAddress Scenario.O2) ]
              Scenario.confirmed) as (H1 & H2 & H3).
  split; [exact H1 | split; [| exact H3]].
  apply H2. by vm_compute.
Defined.

(** * Confirmed providers are enumerated *)

Lemma visible_step c st tx :
  deployed c -> reachable c st ->
  (forall p, index (info_at st p) <> 0 -> p ∈ stakingProviders st) ->
  (forall p, operator (info_at st p) <> 0 -> p ∈ stakingProviders st) ->
  (forall p, operatorConfirmed (info_at st p) = true ->
             operator (info_at st p) <> 0) ->
  let st' := transact c tx st in
  (forall p, index (info_at st' p) <> 0 -> p ∈ stakingProviders st') /\
  (forall p, operator (info_at st' p) <> 0 -> p ∈ stakingProviders st') /\
  (forall p, operatorConfirmed (info_at st' p) = true ->
             operator (info_at st' p) <> 0).
Proof.
  intros Hdep Hreach Hidx Hop Hconf st'. unfold st'. clear st'.
  destruct (zero_untouched_reachable c Hdep st Hreach) as [Hzero Hzero'].
  pose proof (bound_back_reachable c st Hreach) as Hback.
  destruct (deployed_checks c Hdep) as [_ Hmin].
  destruct tx as [w f].
  destruct (call_updateOperator_dec f) as [(q & o & ->) | Hf].
  - destruct (transact_updateOperator c w q o st)
      as [-> | (Hq & Ho & _ & ->)]; [done |].
    rewrite _updateOperator_stakingProviders by done.
    assert (Hq_in : q ∈ (if index (info_at st q) =? 0
                         then stakingProviders st ++ [q]
                         else stakingProviders st)).
    { destruct (index (info_at st q) =? 0) eqn:E.
      - apply elem_of_app. right. by apply list_elem_of_singleton.
      - apply Hidx. by apply Z.eqb_neq. }
    assert (Hmono : forall p, p ∈ stakingProviders st ->
                    p ∈ (if index (info_at st q) =? 0
                         then stakingProviders st ++ [q]
                         else stakingProviders st)).
    { intros p Hp. destruct (_ =? 0); [| done]. apply elem_of_app. by left. }
    split; [| split]; intros p;
      (destruct (decide (p = q)) as [-> | Hne];
       [ rewrite _updateOperator_info by done; simpl
       | rewrite _updateOperator_info_other by done ]);
      try done; auto.
  - destruct (transact_cases c (w, f) st) as [-> | Hc]; [done |].
    simpl in Hc.
    destruct (commits_frame c w st f _ Hc Hf) as [Hl Hq].
    rewrite Hl. split; [| split]; intros p.
    + destruct (Hq p) as (_ & -> & _). apply Hidx.
    + destruct (Hq p) as (-> & _). apply Hop.
    + destruct (Hq p) as (-> & _). intros Htrue.
      destruct (operatorConfirmed (info_at st p)) eqn:Ebefore; [by apply Hconf |].
      destruct (commits_confirms c w st f _ p Hc Hf Ebefore Htrue)
        as (o & _ & _ & E & Hauth).
      assert (Hp : p <> 0).
      { intros ->. rewrite Hzero in Hauth. simpl in Hauth. lia. }
      rewrite (Hback o p E Hp). intros ->. congruence.
Qed.

Lemma visible_reachable c st :
  deployed c -> reachable c st ->
  (forall p, index (info_at st p) <> 0 -> p ∈ stakingProviders st) /\
  (forall p, operator (info_at st p) <> 0 -> p ∈ stakingProviders st) /\
  (forall p, operatorConfirmed (info_at st p) = true ->
             operator (info_at st p) <> 0).
Proof.
  intros Hdep. induction 1 as [v | st tx Hreach (H1 & H2 & H3)].
  - by repeat split.
  - by apply visible_step.
Qed.

(** X18: in a deployed registry every confirmed provider is a non-zero
    address, is bound to a non-zero operator and is in
    [stakingProviders]; more generally, every provider bound to a
    non-zero operator is in [stakingProviders].  The scan of
    [getActiveStakingProviders] therefore sees every confirmed provider. *)
Theorem confirmed_provider_is_enumerated c st :
  deployed c -> reachable c st ->
  (forall p, operator (info_at st p) <> 0 -> p ∈ stakingProviders st) /\
  (forall p, operatorConfirmed (info_at st p) = true ->
     p <> 0 /\ operator (info_at st p) <> 0 /\ p ∈ stakingProviders st).
Proof.
  intros Hdep Hreach.
  destruct (visible_reachable c st Hdep Hreach) as (_ & Hop & Hconf).
  destruct (zero_untouched_reachable c Hdep st Hreach) as [Hzero _].
  split; [done |]. intros p Htrue.
  split; [| split; [by apply Hconf | by apply Hop, Hconf]].
  intros ->. by rewrite Hzero in Htrue.
Qed.

Lemma confirmed_provider_is_enumerated_witness :
  Scenario.A <> 0 /\
  operator (info_at Scenario.two Scenario.A) <> 0 /\
  Scenario.A ∈ stakingProviders Scenario.two.
Proof.
  destruct (confirmed_provider_is_enumerated Scenario.c Scenario.two)
    as [_ H].
  - exists (empty_storage 255). reflexivity.
  - unfold Scenario.two, Scenario.confirmed, Scenario.bound.
    apply reachable_run, reachable_step, reachable_run, reachable_fresh.
  - apply H. by vm_compute.
Defined.

(** * Rebinding, then confirming *)

(** X19: after the root application binds a provider with at least
    [minimumAuthorization] authorized to a new non-zero operator, the
    provider is unconfirmed and the coordinator can confirm that operator
    at once, provided the root application accepts the confirmation:
    the call commits and the provider is confirmed again. *)
Theorem rebind_then_confirm c w w2 st p o :
  msg_sender w = rootApplication c ->
  p <> 0 -> o <> 0 -> o <> operator (info_at st p) ->
  minimumAuthorization c <= authorized (info_at st p) ->
  let st1 := transact c (w, UpdateOperator p o) st in
  msg_sender w2 = coordinator st1 ->
  root_confirms w2 o = true ->
  operatorConfirmed (info_at st1 p) = false /\
  exists st2,
    confirmOperatorAddress c w2 o st1 = Ok (st2, [OperatorConfirmed p o]) /\
    operatorConfirmed (info_at st2 p) = true /\
    operator (info_at st2 p) = o.
Proof.
  intros Hs Hp Ho Hne Hauth st1 Hs2 Hroot.
  assert (Est : st1 = fst (_updateOperator p o st)).
  { unfold st1, transact. simpl. rewrite updateOperator_as_root by done.
    by destruct (_updateOperator p o st). }
  assert (Hprov : provider_of st1 o = p).
  { rewrite Est, _updateOperator_provider_of by done.
    by destruct (decide (o <> 0 /\ o = o)) as [_ | []]. }
  assert (Hinfo : info_at st1 p =
                  with_operatorConfirmed false
                    (with_operator o
                       (with_index
                          (if index (info_at st p) =? 0
                           then truncate 248
                                  (Z.of_nat (length (stakingProviders st)) + 1)
                           else index (info_at st p))
                          (info_at st p))))
    by (by rewrite Est, _updateOperator_info).
  split; [by rewrite Hinfo |].
  destruct (confirmOperatorAddress_outcome c w2 o st1) as [_ H];
    rewrite ?Hprov, ?Hinfo; try done.
  destruct (H Hroot) as (st2 & Hcall & Hinfo2 & _).
  rewrite Hprov in Hcall, Hinfo2.
  exists st2. split; [done |]. by rewrite Hinfo2, Hinfo.
Qed.

Lemma rebind_then_confirm_witness :
  let st1 := transact Scenario.c
               (Scenario.as_root, UpdateOperator Scenario.A Scenario.O2)
               Scenario.confirmed in
  operatorConfirmed (info_at st1 Scenario.A) = false /\
  exists st2,
    confirmOperatorAddress Scenario.c Scenario.as_coordinator Scenario.O2 st1
      = Ok (st2, [OperatorConfirmed Scenario.A Scenario.O2]) /\
    operatorConfirmed (info_at st2 Scenario.A) = true /\
    operator (info_at st2 Scenario.A) = Scenario.O2.
Proof.
  apply (rebind_then_confirm Scenario.c Scenario.as_root
           Scenario.as_coordinator Scenario.confirmed Scenario.A Scenario.O2);
    by vm_compute.
Defined.
